(** * Bitswap workers (go-bitswap/workers.go)

    A shallow embedding of the five worker loops started by
    [Bitswap.startWorkers]: [providerQueryManager], [taskWorker],
    [rebroadcastWorker], [provideCollector] and [provideWorker].

    Every goroutine is a small labelled transition system.  A label names
    the [select] case (or the statement) that fires; the transition
    function returns [None] when that case cannot fire in the given state
    (a receive from an empty channel, a send on a nil or full channel, a
    [ctx.Done()] case of a context that is not canceled).  A schedule is a
    list of labels, so "for every interleaving" is "for every list of
    labels that runs". *)

From stdpp Require Import base option list strings gmap.
From Stdlib Require Import ZArith Lia.
From Stdlib Require Strings.Byte.

Set Default Proof Using "Type".
Open Scope Z_scope.
Open Scope nat_scope.

(** [cid.Cid] wraps a string; it is the key of every set below. *)
Module cid.
Definition Cid := string.
End cid.

(** [peer.ID] is a string as well. *)
Module peer.
Definition ID := string.
End peer.

(** A [context.Context] is identified by a number; which contexts are done
    is part of the state of each model. *)
Definition ctx_id := nat.

(** [blockRequest{Cid, Ctx}], what travels on [bs.findKeys]. *)
Record blockRequest := mkReq { Cid : cid.Cid; Ctx : ctx_id }.

(** Running a schedule: the labels fire one after the other, and the run
    is undefined as soon as one of them cannot fire. *)
Fixpoint run_with {S A : Type} (step : S → A → option S)
    (s : S) (acts : list A) : option S :=
  match acts with
  | [] => Some s
  | a :: rest =>
      match step s a with
      | Some s' => run_with step s' rest
      | None => None
      end
  end.

(** ** provideCollector (workers.go, lines 139-170) *)
Module ProvideCollector.

(** The three locals of the loop, and what it has done to
    [bs.provideKeys]: the values sent on it, oldest first, and whether the
    deferred [close] has run. *)
Record state := mkState {
  toProvide : list cid.Cid;
  nextKey : cid.Cid;
  keysOut : bool;            (* false: the nil channel; true: bs.provideKeys *)
  provideKeys : list cid.Cid;
  closedKeys : bool;
  returned : bool
}.

(** [var toProvide []cid.Cid; var nextKey cid.Cid; var keysOut chan cid.Cid] *)
Definition init : state :=
  {| toProvide := []; nextKey := ""; keysOut := false;
     provideKeys := []; closedKeys := false; returned := false |}.

Inductive action :=
  | RecvBlock (blkey : cid.Cid)    (* case blkey, ok := <-bs.newBlocks, with ok *)
  | RecvClosed                 (* the same case, with !ok *)
  | SendKey                    (* case keysOut <- nextKey *)
  | CtxDone.                   (* case <-ctx.Done() *)

(** [return], followed by the deferred [close(bs.provideKeys)]. *)
Definition leave (s : state) : state :=
  {| toProvide := toProvide s; nextKey := nextKey s; keysOut := keysOut s;
     provideKeys := provideKeys s; closedKeys := true; returned := true |}.

Definition step (s : state) (a : action) : option state :=
  if returned s then None else
  match a with
  | RecvBlock blkey =>
      if keysOut s
      then Some {| toProvide := toProvide s ++ [blkey]; nextKey := nextKey s;
                   keysOut := true; provideKeys := provideKeys s;
                   closedKeys := closedKeys s; returned := false |}
      else Some {| toProvide := toProvide s; nextKey := blkey;
                   keysOut := true; provideKeys := provideKeys s;
                   closedKeys := closedKeys s; returned := false |}
  | RecvClosed => Some (leave s)
  | SendKey =>
      if keysOut s
      then match toProvide s with
           | k :: rest =>
               Some {| toProvide := rest; nextKey := k; keysOut := true;
                       provideKeys := provideKeys s ++ [nextKey s];
                       closedKeys := closedKeys s; returned := false |}
           | [] =>
               Some {| toProvide := []; nextKey := nextKey s; keysOut := false;
                       provideKeys := provideKeys s ++ [nextKey s];
                       closedKeys := closedKeys s; returned := false |}
           end
      else None
  | CtxDone => Some (leave s)
  end.

Definition run : state → list action → option state := run_with step.

(** What the loop received from its input during a schedule, in order. *)
Fixpoint received (acts : list action) : list cid.Cid :=
  match acts with
  | [] => []
  | RecvBlock c :: rest => c :: received rest
  | _ :: rest => received rest
  end.

(** The ContentIDs the loop holds: the armed candidate, then the queue. *)
Definition held (s : state) : list cid.Cid :=
  if keysOut s then nextKey s :: toProvide s else toProvide s.

(** The labels of a bridge that keeps running: input open, context live. *)
Definition keeps_running (a : action) : bool :=
  match a with
  | RecvBlock _ | SendKey => true
  | RecvClosed | CtxDone => false
  end.

(** Idle mode has an empty queue. *)
Definition idle_ok (s : state) : Prop :=
  keysOut s = false → toProvide s = [].

End ProvideCollector.

(** ** provideWorker (workers.go, lines 93-137) *)
Module ProvideWorker.

(** What [bs.network.Provide(ctx, k)] came back with; a timeout of the
    15-second context is an error like any other. *)
Inductive provide_result := ProvideOk | ProvideFailed | ProvideTimedOut.

(** Where a [limitedGoProvide] goroutine stands: inside [Provide], or past
    it (the warning logged if there was an error) with the deferred
    [<-limit] still to run. *)
Inductive task_pc :=
  | InProvide
  | AtRelease (res : provide_result).

Record task := mkTask { key : cid.Cid; wid : nat; pc : task_pc }.

(** The spawner loop: at the outer [select]; at the inner [select] with a
    key in hand; past the send on [limit] with the [go] statement next;
    returned. *)
Inductive spawner :=
  | AtKeys (wid : nat)
  | AtLimit (wid : nat) (k : cid.Cid)
  | AtGo (wid : nat) (k : cid.Cid)
  | Returned.

Record state := mkState {
  limit : nat;            (* tokens in the buffer of [limit] *)
  loop : spawner;
  tasks : list task;      (* goroutines started by [go limitedGoProvide] *)
  warnings : nat          (* calls of [log.Warning(err)] *)
}.

(** [for wid := 2; ; wid++] *)
Definition init : state :=
  {| limit := 0; loop := AtKeys 2; tasks := []; warnings := 0 |}.

Inductive action :=
  | RecvKey (k : cid.Cid)       (* case k, ok := <-bs.provideKeys, with ok *)
  | KeysClosed              (* the same case, with !ok *)
  | Closing                 (* case <-px.Closing(), in either select *)
  | Acquire                 (* case limit <- struct{}{} *)
  | Go                      (* go limitedGoProvide(k, wid) *)
  | ProvideReturns (i : nat) (res : provide_result)
  | Release (i : nat)       (* the deferred <-limit of task i *)
  | Handoff (i : nat).      (* an unbuffered [limit]: the send meets the <-limit of task i *)

Definition in_provide (t : task) : bool :=
  match pc t with InProvide => true | AtRelease _ => false end.

(** The goroutine that the spawner is about to start. *)
Definition about_to_go (s : state) : nat :=
  match loop s with AtGo _ _ => 1 | _ => 0 end.

Definition failed (res : provide_result) : bool :=
  match res with ProvideOk => false | _ => true end.

Section Limit.

(** [provideWorkerMax], the capacity given to [make(chan struct{}, _)]; it
    is declared outside this file. *)
Variable provideWorkerMax : nat.

Definition step (s : state) (a : action) : option state :=
  match a with
  | RecvKey k =>
      match loop s with
      | AtKeys w => Some {| limit := limit s; loop := AtLimit w k;
                            tasks := tasks s; warnings := warnings s |}
      | _ => None
      end
  | KeysClosed =>
      match loop s with
      | AtKeys _ => Some {| limit := limit s; loop := Returned;
                            tasks := tasks s; warnings := warnings s |}
      | _ => None
      end
  | Closing =>
      match loop s with
      | AtKeys _ | AtLimit _ _ =>
          Some {| limit := limit s; loop := Returned;
                  tasks := tasks s; warnings := warnings s |}
      | _ => None
      end
  | Acquire =>
      match loop s with
      | AtLimit w k =>
          if decide (limit s < provideWorkerMax)
          then Some {| limit := S (limit s); loop := AtGo w k;
                       tasks := tasks s; warnings := warnings s |}
          else None
      | _ => None
      end
  | Go =>
      match loop s with
      | AtGo w k =>
          Some {| limit := limit s; loop := AtKeys (S w);
                  tasks := tasks s ++ [mkTask k w InProvide];
                  warnings := warnings s |}
      | _ => None
      end
  | ProvideReturns i res =>
      match tasks s !! i with
      | Some (mkTask k w InProvide) =>
          Some {| limit := limit s; loop := loop s;
                  tasks := <[i := mkTask k w (AtRelease res)]> (tasks s);
                  warnings := if failed res then S (warnings s)
                              else warnings s |}
      | _ => None
      end
  | Release i =>
      match tasks s !! i, limit s with
      | Some (mkTask _ _ (AtRelease _)), S n =>
          Some {| limit := n; loop := loop s;
                  tasks := delete i (tasks s); warnings := warnings s |}
      | _, _ => None
      end
  | Handoff i =>
      match tasks s !! i, loop s with
      | Some (mkTask _ _ (AtRelease _)), AtLimit w k =>
          if decide (provideWorkerMax = 0)
          then Some {| limit := limit s; loop := AtGo w k;
                       tasks := delete i (tasks s); warnings := warnings s |}
          else None
      | _, _ => None
      end
  end.

Definition run : state → list action → option state := run_with step.

End Limit.

End ProvideWorker.

(** ** providerQueryManager (workers.go, lines 210-256) *)
Module ProviderQueryManager.

(** Where the goroutine of [go func(e *blockRequest)] stands: before the
    call of [FindProvidersAsync]; in [for p := range providers]; in
    [wg.Wait()].  [wg] is the counter of the WaitGroup, the connection
    attempts that have not called [wg.Done()] yet. *)
Inductive task_pc :=
  | AtFind
  | AtRange (wg : nat)
  | AtWait (wg : nat).

Record task := mkTask { req : blockRequest; pc : task_pc }.

(** The manager loop: at the [select]; past [kset.Add] and
    [activeLk.Unlock()] with the [go] statement next; returned. *)
Inductive manager :=
  | AtSelect
  | AtGo (e : blockRequest)
  | Returned.

(** The calls the goroutines make, newest first. *)
Inductive event :=
  | FindProvidersAsync (k : cid.Cid)
  | ConnectTo (p : peer.ID)
  | Removed (k : cid.Cid).

Record state := mkState {
  done : gset ctx_id;       (* the contexts whose Done channel is closed *)
  kset : gset cid.Cid;      (* cid.NewSet(), guarded by activeLk *)
  loop : manager;
  tasks : list task;        (* search goroutines that have not returned *)
  trace : list event
}.

Definition init : state :=
  {| done := ∅; kset := ∅; loop := AtSelect; tasks := []; trace := [] |}.

Inductive action :=
  | Cancel (c : ctx_id)          (* somebody cancels context c, or it times out *)
  | RecvReq (e : blockRequest)   (* case e := <-bs.findKeys *)
  | Go                           (* go func(e *blockRequest) {...}(e) *)
  | CtxDone                      (* case <-ctx.Done() *)
  | Find (i : nat)               (* task i calls FindProvidersAsync *)
  | Provider (i : nat) (p : peer.ID)  (* task i: p arrives; wg.Add(1); go ConnectTo *)
  | Exhausted (i : nat)          (* task i: the providers channel is closed *)
  | ConnectReturns (i : nat) (ok : bool)   (* a ConnectTo of task i ends; wg.Done() *)
  | Remove (i : nat).            (* task i: wg.Wait() is over; kset.Remove(e.Cid) *)

Definition set_task (s : state) (i : nat) (t : task) : state :=
  {| done := done s; kset := kset s; loop := loop s;
     tasks := <[i := t]> (tasks s); trace := trace s |}.

Section Manager.

(** The context the manager itself was started with. *)
Variable ctx : ctx_id.

(** [RecvReq] is lines 216-229 in one step, taken at the moment of the
    check under [activeLk]: between the receive and the lock the manager
    reads nothing but [e.Ctx.Done()]. *)
Definition step (s : state) (a : action) : option state :=
  match a with
  | Cancel c =>
      Some {| done := {[c]} ∪ done s; kset := kset s; loop := loop s;
              tasks := tasks s; trace := trace s |}
  | RecvReq e =>
      match loop s with
      | AtSelect =>
          if decide (Ctx e ∈ done s) then Some s          (* continue *)
          else if decide (Cid e ∈ kset s) then Some s     (* continue *)
          else Some {| done := done s; kset := {[Cid e]} ∪ kset s;
                       loop := AtGo e; tasks := tasks s; trace := trace s |}
      | _ => None
      end
  | Go =>
      match loop s with
      | AtGo e => Some {| done := done s; kset := kset s; loop := AtSelect;
                          tasks := tasks s ++ [mkTask e AtFind];
                          trace := trace s |}
      | _ => None
      end
  | CtxDone =>
      match loop s with
      | AtSelect =>
          if decide (ctx ∈ done s)
          then Some {| done := done s; kset := kset s; loop := Returned;
                       tasks := tasks s; trace := trace s |}
          else None
      | _ => None
      end
  | Find i =>
      match tasks s !! i with
      | Some (mkTask e AtFind) =>
          Some {| done := done s; kset := kset s; loop := loop s;
                  tasks := <[i := mkTask e (AtRange 0)]> (tasks s);
                  trace := FindProvidersAsync (Cid e) :: trace s |}
      | _ => None
      end
  | Provider i p =>
      match tasks s !! i with
      | Some (mkTask e (AtRange n)) =>
          Some {| done := done s; kset := kset s; loop := loop s;
                  tasks := <[i := mkTask e (AtRange (S n))]> (tasks s);
                  trace := ConnectTo p :: trace s |}
      | _ => None
      end
  | Exhausted i =>
      match tasks s !! i with
      | Some (mkTask e (AtRange n)) => Some (set_task s i (mkTask e (AtWait n)))
      | _ => None
      end
  | ConnectReturns i _ =>
      match tasks s !! i with
      | Some (mkTask e (AtRange (S n))) =>
          Some (set_task s i (mkTask e (AtRange n)))
      | Some (mkTask e (AtWait (S n))) =>
          Some (set_task s i (mkTask e (AtWait n)))
      | _ => None
      end
  | Remove i =>
      match tasks s !! i with
      | Some (mkTask e (AtWait 0)) =>
          Some {| done := done s; kset := kset s ∖ {[Cid e]}; loop := loop s;
                  tasks := delete i (tasks s);
                  trace := Removed (Cid e) :: trace s |}
      | _ => None
      end
  end.

Definition run : state → list action → option state := run_with step.

End Manager.

(** Counting, for one ContentID [k]. *)
Fixpoint count {A : Type} (P : A → bool) (l : list A) : nat :=
  match l with
  | [] => 0
  | x :: rest => (if P x then 1 else 0) + count P rest
  end.

Definition searches (k : cid.Cid) (t : task) : bool :=
  bool_decide (Cid (req t) = k).

Definition uncalled (k : cid.Cid) (t : task) : bool :=
  searches k t && match pc t with AtFind => true | _ => false end.

Definition about_to_go (k : cid.Cid) (s : state) : nat :=
  match loop s with
  | AtGo e => if bool_decide (Cid e = k) then 1 else 0
  | _ => 0
  end.

(** The discovery tasks for [k] in flight: the goroutines that have not
    returned, and the one the manager is about to start. *)
Definition in_flight (k : cid.Cid) (s : state) : nat :=
  count (searches k) (tasks s) + about_to_go k s.

(** Those of them that have not called [FindProvidersAsync] yet. *)
Definition not_called (k : cid.Cid) (s : state) : nat :=
  count (uncalled k) (tasks s) + about_to_go k s.

Definition is_find (k : cid.Cid) (ev : event) : bool :=
  match ev with FindProvidersAsync k' => bool_decide (k' = k) | _ => false end.

Definition is_removed (k : cid.Cid) (ev : event) : bool :=
  match ev with Removed k' => bool_decide (k' = k) | _ => false end.

Definition finds (k : cid.Cid) (s : state) : nat := count (is_find k) (trace s).
Definition removes (k : cid.Cid) (s : state) : nat :=
  count (is_removed k) (trace s).

Definition member (k : cid.Cid) (s : state) : nat :=
  if bool_decide (k ∈ kset s) then 1 else 0.

(** The connection attempts of a task that have not returned: the
    counter of its WaitGroup. *)
Definition open_attempts (t : task) : nat :=
  match pc t with
  | AtFind => 0
  | AtRange wg | AtWait wg => wg
  end.

(** Those of all the tasks that have not removed their key yet. *)
Definition pending (s : state) : nat :=
  foldr (λ t n, open_attempts t + n) 0 (tasks s).

Definition is_connect (ev : event) : bool :=
  match ev with ConnectTo _ => true | _ => false end.

(** The calls of [ConnectTo] made so far. *)
Definition connects (s : state) : nat := count is_connect (trace s).

Definition is_return (a : action) : bool :=
  match a with ConnectReturns _ _ => true | _ => false end.

(** The calls of [ConnectTo] that return during a schedule. *)
Definition returned_attempts (acts : list action) : nat :=
  count is_return acts.

End ProviderQueryManager.

(** ** taskWorker (workers.go, lines 50-91) *)

(** [blocks.Block]: the worker reads [Cid()] and [RawData()]. *)
Module blocks.
Record Block := mkBlock { Cid : cid.Cid; RawData : list Byte.byte }.
End blocks.

(** [bsmsg.BitSwapMessage] is an interface of the message package, which
    is declared outside this file; the worker uses [New], [AddBlock] and
    [Blocks].  Its contract is taken as given: a new message has no
    block, and [AddBlock] stores the block under its Cid, replacing a
    block stored under the same Cid; [Blocks] lists what is stored, in no
    particular order. *)
Module bsmsg.
Class BitSwapMessage (M : Type) := {
  New : bool → M;
  AddBlock : M → blocks.Block → M;
  Blocks : M → list blocks.Block;
  Blocks_New : ∀ full, Blocks (New full) = [];
  Blocks_AddBlock : ∀ m b,
    Blocks (AddBlock m b)
    ≡ₚ filter (λ b', blocks.Cid b' ≠ blocks.Cid b) (Blocks m) ++ [b]
}.
End bsmsg.

Module TaskWorker.
Import bsmsg.

(** [engine.Envelope], as the worker reads it. *)
Record Envelope (M : Type) := mkEnvelope { Peer : peer.ID; Message : M }.
Arguments mkEnvelope {M}.
Arguments Peer {M}.
Arguments Message {M}.

(** [bs.counters.blocksSent] and [bs.counters.dataSent], both uint64. *)
Record counters := mkCounters { blocksSent : Z; dataSent : Z }.

Definition u64 (z : Z) : Z := z mod 2 ^ 64.

(** What one worker does, oldest first.  [SendBlocks] carries whether the
    transmission went through; the call hands nothing back to the worker. *)
Inductive event (M : Type) :=
  | LogEvent (name : string)
  | LogDebug (text : string)
  | MessageSent (p : peer.ID) (m : M)
  | SendBlocks (env : Envelope M) (sent : bool)
  | Lock
  | Count (blk : blocks.Block)
  | Unlock.
Arguments LogEvent {M}.
Arguments LogDebug {M}.
Arguments MessageSent {M}.
Arguments SendBlocks {M}.
Arguments Lock {M}.
Arguments Count {M}.
Arguments Unlock {M}.

(** What a worker reads and writes: [counts] is [bs.counters], the one
    struct of the Bitswap that all task workers started by [startWorkers]
    write under [bs.counterLk]; [trace] is the record of this worker's
    own calls. *)
Record world (M : Type) := mkWorld {
  counts : counters;
  trace : list (event M)
}.
Arguments mkWorld {M}.
Arguments counts {M}.
Arguments trace {M}.

Definition emit {M : Type} (ev : event M) (w : world M) : world M :=
  {| counts := counts w; trace := trace w ++ [ev] |}.

(** One pass of the loop of lines 79-82. *)
Definition count_block {M : Type} (w : world M) (blk : blocks.Block)
    : world M :=
  {| counts :=
       {| blocksSent := u64 (blocksSent (counts w) + 1);
          dataSent :=
            u64 (dataSent (counts w)
                 + u64 (Z.of_nat (length (blocks.RawData blk)))) |};
     trace := trace w ++ [Count blk] |}.

(** The events that are not log lines. *)
Definition is_call {M : Type} (ev : event M) : bool :=
  match ev with LogEvent _ | LogDebug _ => false | _ => true end.

Definition calls {M : Type} (l : list (event M)) : list (event M) :=
  filter (λ ev, is_call ev = true) l.

Section Worker.
Context {M : Type} `{!BitSwapMessage M}.

(** One pass of the loop of lines 65-74: the log line, then [AddBlock]. *)
Definition add_one (acc : M * world M) (blk : blocks.Block) : M * world M :=
  (AddBlock acc.1 blk, emit (LogEvent "Bitswap.TaskWorker.Work") acc.2).

(** Lines 62-83, for an envelope received with [ok]; [sent] is what
    happens inside [SendBlocks]. *)
Definition process (sent : bool) (envelope : Envelope M) (w : world M)
    : world M :=
  let '(outgoing, w) :=
    foldl add_one (New false, w) (Blocks (Message envelope)) in
  let w := emit (MessageSent (Peer envelope) outgoing) w in
  let w := emit (SendBlocks envelope sent) w in
  let w := emit Lock w in
  let w := foldl count_block w (Blocks (Message envelope)) in
  emit Unlock w.

(** The one-shot channel that the outbox hands out: nothing in it yet, an
    envelope in it, or closed with nothing in it. *)
Inductive inner :=
  | Pending
  | Ready (envelope : Envelope M)
  | Withdrawn.

Inductive worker_pc :=
  | AtOutbox
  | AtEnvelope (nextEnvelope : inner)
  | Returned.

Record state := mkState {
  pc : worker_pc;
  canceled : bool;             (* ctx.Done() is closed *)
  Outbox : list inner;         (* what bs.engine.Outbox() has on offer *)
  bs : world M                 (* the shared counters, and this worker's calls *)
}.

(** A worker at the top of its loop on a Bitswap whose counters nobody
    has written yet. *)
Definition init : state :=
  {| pc := AtOutbox; canceled := false; Outbox := [];
     bs := {| counts := mkCounters 0 0;
              trace := [LogEvent "Bitswap.TaskWorker.Loop"] |} |}.

Inductive action :=
  | Offer (ch : inner)            (* the engine offers a channel *)
  | Fill (envelope : Envelope M)  (* the engine fills the channel the worker holds *)
  | Withdraw                      (* the engine closes it instead *)
  | CancelCtx                     (* the context is canceled *)
  | RecvOutbox                    (* case nextEnvelope := <-bs.engine.Outbox() *)
  | RecvEnvelope (sent : bool)    (* case envelope, ok := <-nextEnvelope *)
  | CtxDone                       (* case <-ctx.Done(), in either select *)
  | OtherRecvOutbox               (* another task worker: line 56 *)
  | OtherCounts (envelope : Envelope M).  (* another task worker: lines 78-83 *)

(** The labels that are steps of the worker itself. *)
Definition of_worker (a : action) : bool :=
  match a with
  | RecvOutbox | RecvEnvelope _ | CtxDone => true
  | _ => false
  end.

(** Back to the top of [for]. *)
Definition again (w : world M) : world M :=
  emit (LogEvent "Bitswap.TaskWorker.Loop") w.

(** Lines 78-83 run by another task worker for its envelope: the shared
    counters move, this worker's own record does not.  The mutex makes
    the section one step: it cannot fall inside the locked section of
    this worker, and the statements of this worker outside its locked
    section do not touch the counters. *)
Definition counted_elsewhere (envelope : Envelope M) (w : world M)
    : world M :=
  {| counts := counts (foldl count_block w (Blocks (Message envelope)));
     trace := trace w |}.

(** The steps of one task worker, of the engine and the context it waits
    for, and of the other task workers on the same Bitswap, which take
    from the same outbox and write the same counters. *)
Definition step (s : state) (a : action) : option state :=
  match a with
  | Offer ch =>
      Some {| pc := pc s; canceled := canceled s;
              Outbox := Outbox s ++ [ch]; bs := bs s |}
  | Fill envelope =>
      match pc s with
      | AtEnvelope Pending =>
          Some {| pc := AtEnvelope (Ready envelope); canceled := canceled s;
                  Outbox := Outbox s; bs := bs s |}
      | _ => None
      end
  | Withdraw =>
      match pc s with
      | AtEnvelope Pending =>
          Some {| pc := AtEnvelope Withdrawn; canceled := canceled s;
                  Outbox := Outbox s; bs := bs s |}
      | _ => None
      end
  | CancelCtx =>
      Some {| pc := pc s; canceled := true; Outbox := Outbox s; bs := bs s |}
  | RecvOutbox =>
      match pc s, Outbox s with
      | AtOutbox, nextEnvelope :: rest =>
          Some {| pc := AtEnvelope nextEnvelope; canceled := canceled s;
                  Outbox := rest; bs := bs s |}
      | _, _ => None
      end
  | RecvEnvelope sent =>
      match pc s with
      | AtEnvelope (Ready envelope) =>
          Some {| pc := AtOutbox; canceled := canceled s; Outbox := Outbox s;
                  bs := again (process sent envelope (bs s)) |}
      | AtEnvelope Withdrawn =>                         (* !ok: continue *)
          Some {| pc := AtOutbox; canceled := canceled s; Outbox := Outbox s;
                  bs := again (bs s) |}
      | _ => None
      end
  | CtxDone =>
      match pc s with
      | Returned => None
      | _ =>
          if canceled s
          then Some {| pc := Returned; canceled := true; Outbox := Outbox s;
                       bs := emit (LogDebug "bitswap task worker shutting down...")
                                  (bs s) |}
          else None
      end
  | OtherRecvOutbox =>
      match Outbox s with
      | _ :: rest =>
          Some {| pc := pc s; canceled := canceled s; Outbox := rest;
                  bs := bs s |}
      | [] => None
      end
  | OtherCounts envelope =>
      Some {| pc := pc s; canceled := canceled s; Outbox := Outbox s;
              bs := counted_elsewhere envelope (bs s) |}
  end.

Definition run : state → list action → option state := run_with step.

End Worker.

(** A message kept as a list with one block per Cid, for running the
    worker on examples. *)
Definition list_AddBlock (m : list blocks.Block) (b : blocks.Block)
    : list blocks.Block :=
  filter (λ b', blocks.Cid b' ≠ blocks.Cid b) m ++ [b].

#[export] Instance list_message : BitSwapMessage (list blocks.Block) := {|
  New := λ _, [];
  AddBlock := list_AddBlock;
  Blocks := λ m, m;
  Blocks_New := λ _, eq_refl;
  Blocks_AddBlock := λ m b, reflexivity (list_AddBlock m b)
|}.

End TaskWorker.

(** ** rebroadcastWorker (workers.go, lines 172-208) *)

(** [wantlist.Entry], as the worker reads it. *)
Module wantlist.
Record Entry := mkEntry { Cid : cid.Cid; Priority : Z }.
End wantlist.

(** [rand.Intn(n)], for n > 0, draws a number of [0,n) uniformly: these
    are its n equally likely results. *)
Module rand.
Definition Intn (n : nat) : list nat := seq 0 n.
End rand.

Module RebroadcastWorker.

Inductive worker_pc :=
  | AtSelect
  | AtSend (e : blockRequest)     (* at [bs.findKeys <- &blockRequest{...}] *)
  | Returned.

Record state := mkState {
  pc : worker_pc;
  parentDone : bool;              (* parent.Done() is closed *)
  tickStopped : bool;             (* the deferred tick.Stop() has run *)
  broadcastStopped : bool;        (* the deferred broadcastSignal.Stop() has run *)
  wants : list wantlist.Entry;    (* what bs.wm.CurrentWants() returns now *)
  findKeys : list blockRequest;   (* the buffer of bs.findKeys, oldest first *)
  taken : list blockRequest;      (* what providerQueryManager has received *)
  managerUp : bool;               (* the providerQueryManager loop has not returned *)
  debugLines : nat                (* log.Debug(n, " keys in bitswap wantlist") *)
}.

Definition init : state :=
  {| pc := AtSelect; parentDone := false; tickStopped := false;
     broadcastStopped := false; wants := []; findKeys := []; taken := [];
     managerUp := true; debugLines := 0 |}.

Inductive action :=
  | SetWants (ws : list wantlist.Entry)   (* the want-list changes *)
  | CancelParent                 (* the parent context is canceled *)
  | ManagerRecv                  (* providerQueryManager: case e := <-bs.findKeys *)
  | ManagerReturns               (* providerQueryManager: case <-ctx.Done() *)
  | Tick                         (* case <-tick.C *)
  | Broadcast (i : nat)          (* case <-broadcastSignal.C; i is what rand.Intn gives *)
  | Send                         (* bs.findKeys <- &blockRequest{...} goes through *)
  | ParentDone.                  (* case <-parent.Done() *)

(** The labels that are steps of the worker itself. *)
Definition of_worker (a : action) : bool :=
  match a with
  | Tick | Broadcast _ | Send | ParentDone => true
  | _ => false
  end.

(** Every request sent on [bs.findKeys] so far, oldest first. *)
Definition submitted (s : state) : list blockRequest :=
  taken s ++ findKeys s.

Definition set_pc (s : state) (p : worker_pc) : state :=
  {| pc := p; parentDone := parentDone s; tickStopped := tickStopped s;
     broadcastStopped := broadcastStopped s; wants := wants s;
     findKeys := findKeys s; taken := taken s; managerUp := managerUp s;
     debugLines := debugLines s |}.

Section Worker.

(** The context made by [context.WithCancel(parent)], and the capacity of
    [bs.findKeys], which is made outside this file. *)
Variable ctx : ctx_id.
Variable capacity : nat.

Definition step (s : state) (a : action) : option state :=
  match a with
  | SetWants ws =>
      Some {| pc := pc s; parentDone := parentDone s;
              tickStopped := tickStopped s;
              broadcastStopped := broadcastStopped s; wants := ws;
              findKeys := findKeys s; taken := taken s;
              managerUp := managerUp s; debugLines := debugLines s |}
  | CancelParent =>
      Some {| pc := pc s; parentDone := true; tickStopped := tickStopped s;
              broadcastStopped := broadcastStopped s; wants := wants s;
              findKeys := findKeys s; taken := taken s;
              managerUp := managerUp s; debugLines := debugLines s |}
  | ManagerRecv =>
      match managerUp s, findKeys s with
      | true, e :: rest =>
          Some {| pc := pc s; parentDone := parentDone s;
                  tickStopped := tickStopped s;
                  broadcastStopped := broadcastStopped s; wants := wants s;
                  findKeys := rest; taken := taken s ++ [e];
                  managerUp := true; debugLines := debugLines s |}
      | _, _ => None
      end
  | ManagerReturns =>
      if managerUp s && parentDone s
      then Some {| pc := pc s; parentDone := parentDone s;
                   tickStopped := tickStopped s;
                   broadcastStopped := broadcastStopped s; wants := wants s;
                   findKeys := findKeys s; taken := taken s;
                   managerUp := false; debugLines := debugLines s |}
      else None
  | Tick =>
      match pc s with
      | AtSelect =>
          Some {| pc := AtSelect; parentDone := parentDone s;
                  tickStopped := tickStopped s;
                  broadcastStopped := broadcastStopped s; wants := wants s;
                  findKeys := findKeys s; taken := taken s;
                  managerUp := managerUp s;
                  debugLines := match length (wants s) with
                                | 0 => debugLines s
                                | S _ => S (debugLines s)
                                end |}
      | _ => None
      end
  | Broadcast i =>
      match pc s with
      | AtSelect =>
          match wants s with
          | [] => Some s                               (* continue *)
          | entries =>
              match entries !! i with
              | Some en => Some (set_pc s (AtSend (mkReq (wantlist.Cid en) ctx)))
              | None => None        (* rand.Intn(len(entries)) < len(entries) *)
              end
          end
      | _ => None
      end
  | Send =>
      match pc s with
      | AtSend e =>
          if decide (length (findKeys s) < capacity)
          then Some {| pc := AtSelect; parentDone := parentDone s;
                       tickStopped := tickStopped s;
                       broadcastStopped := broadcastStopped s;
                       wants := wants s; findKeys := findKeys s ++ [e];
                       taken := taken s; managerUp := managerUp s;
                       debugLines := debugLines s |}
          else if decide (capacity = 0) then
            (* unbuffered: the send needs the manager at its receive *)
            if managerUp s
            then Some {| pc := AtSelect; parentDone := parentDone s;
                         tickStopped := tickStopped s;
                         broadcastStopped := broadcastStopped s;
                         wants := wants s; findKeys := findKeys s;
                         taken := taken s ++ [e]; managerUp := true;
                         debugLines := debugLines s |}
            else None
          else None
      | _ => None
      end
  | ParentDone =>
      match pc s with
      | AtSelect =>
          if parentDone s
          then Some {| pc := Returned; parentDone := true;
                       tickStopped := true; broadcastStopped := true;
                       wants := wants s; findKeys := findKeys s;
                       taken := taken s; managerUp := managerUp s;
                       debugLines := debugLines s |}
          else None
      | _ => None
      end
  end.

Definition run : state → list action → option state := run_with step.

End Worker.

End RebroadcastWorker.

(** ** startWorkers (workers.go, lines 20-48) *)
Module StartWorkers.

(** What [px.Go] is given. *)
Inductive goroutine :=
  | providerQueryManager
  | taskWorker (id : Z)
  | rebroadcastWorker
  | provideCollector
  | provideWorker.

(** [for i := 0; i < TaskWorkerCount; i++ { i := i; px.Go(... bs.taskWorker(ctx, i) ...) }]:
    [n] is the number of passes left when the loop is at [i]. *)
Fixpoint taskWorkers (TaskWorkerCount : Z) (n : nat) (i : Z)
    : list goroutine :=
  match n with
  | 0 => []
  | S n' =>
      if decide (i < TaskWorkerCount)%Z
      then taskWorker i :: taskWorkers TaskWorkerCount n' (i + 1)
      else []
  end.

(** The goroutines in the order of the [px.Go] calls.  [TaskWorkerCount]
    is a package variable, an [int]. *)
Definition startWorkers (TaskWorkerCount : Z) : list goroutine :=
  [providerQueryManager]
  ++ taskWorkers TaskWorkerCount (Z.to_nat TaskWorkerCount) 0
  ++ [rebroadcastWorker; provideCollector; provideWorker].

Definition is_taskWorker (g : goroutine) : bool :=
  match g with taskWorker _ => true | _ => false end.

End StartWorkers.

(** ** files stat: moreThanOne and statGetFormatOptions
    (core/commands/files.go, lines 197-218) *)
Module FilesStat.

(** A value of [req.Options], a [map[string]interface{}]. *)
Inductive OptionValue :=
  | BoolValue (b : bool)
  | StringValue (s : string)
  | IntValue (n : Z).

Definition filesHashOptionName : string := "hash".
Definition filesFormatOptionName : string := "format".
Definition filesSizeOptionName : string := "size".

Definition defaultStatFormat : string :=
  "<hash>
Size: <size>
CumulativeSize: <cumulsize>
ChildBlocks: <childs>
Type: <type>".

(** [errFormat], the one error of [statGetFormatOptions]. *)
Inductive error := errFormat.

Inductive result := Ok (format : string) | Err (e : error).

(** [v, _ := req.Options[name].(bool)]: false when the key is missing or
    holds something that is not a bool. *)
Definition as_bool (v : option OptionValue) : bool :=
  match v with Some (BoolValue b) => b | _ => false end.

(** [v, _ := req.Options[name].(string)]: the empty string when the key
    is missing or holds something that is not a string. *)
Definition as_string (v : option OptionValue) : string :=
  match v with Some (StringValue s) => s | _ => "" end.

Definition moreThanOne (a b c : bool) : bool :=
  a && b || b && c || a && c.

Definition statGetFormatOptions (Options : gmap string OptionValue)
    : result :=
  let hash := as_bool (Options !! filesHashOptionName) in
  let size := as_bool (Options !! filesSizeOptionName) in
  let format := as_string (Options !! filesFormatOptionName) in
  if moreThanOne hash size (negb (bool_decide (format = defaultStatFormat)))
  then Err errFormat
  else if hash then Ok "<hash>"
  else if size then Ok "<cumulsize>"
  else Ok format.

End FilesStat.

(** ** ArrComp (go-unixfs test utilities, lines 96-106 of the file kept
    as unnamed/part_001) *)
Module Testu.

#[export] Instance byte_eq_dec : EqDecision Byte.byte :=
  Stdlib.Strings.Byte.byte_eq_dec.

Inductive outcome :=
  | Same                               (* return nil *)
  | DifferInLength (la lb : nat)       (* "arrays differ in length. %d != %d" *)
  | DifferAtIndex (i : nat)            (* "arrays differ at index: %d" *)
  | IndexOutOfRange.                   (* b[i] panics *)

(** [for i, v := range a { if v != b[i] {...} }], from index [i] on. *)
Fixpoint compare_from (i : nat) (a b : list Byte.byte) : outcome :=
  match a with
  | [] => Same
  | v :: rest =>
      match b !! i with
      | None => IndexOutOfRange
      | Some w =>
          if decide (v = w) then compare_from (S i) rest b
          else DifferAtIndex i
      end
  end.

Definition ArrComp (a b : list Byte.byte) : outcome :=
  if decide (length a = length b) then compare_from 0 a b
  else DifferInLength (length a) (length b).

End Testu.

(** ** provideKeys (core/coreapi/dht.go, lines 101-109) *)
Module DhtProvide.

(** [r.Provide(ctx, c, true)] of the routing system, which is outside
    this file: its result, [None] for a nil error, may depend on the
    calls made before.  The calls are logged, oldest first. *)
Section Routing.
Context {error : Type}.
Variable Provide : list cid.Cid → cid.Cid → option error.

Fixpoint provideKeys (cids : list cid.Cid) (calls : list cid.Cid)
    : list cid.Cid * option error :=
  match cids with
  | [] => (calls, None)
  | c :: rest =>
      match Provide calls c with
      | Some err => (calls ++ [c], Some err)
      | None => provideKeys rest (calls ++ [c])
      end
  end.

End Routing.

End DhtProvide.

(** ** walkBlock (core/commands/files.go, lines 265-295) *)
Module WalkBlock.

(** A node with what the service finds behind its links, link by link:
    the DAG below the node as [walkBlock] walks it.  For one link,
    [dagserv.Get(ctx, link.Cid)] gives the child, or [ipld.ErrNotFound],
    or another error. *)
Inductive Node :=
  | mkNode (RawData : list Byte.byte) (Links : list Link)
with Link :=
  | Found (child : Node)
  | ErrNotFound
  | GetFailed (err : string).

Definition u64 (z : Z) : Z := z mod 2 ^ 64.

(** [(local, sizeLocal, err)]. *)
Definition walked : Type := bool * Z * option string.

(** The loop of lines 271-292 over the links that are left, with the
    recursive call as [walk]. *)
Fixpoint walkLinks (walk : Node → walked) (links : list Link)
    (local : bool) (sizeLocal : Z) : walked :=
  match links with
  | [] => (local, sizeLocal, None)
  | ErrNotFound :: rest =>
      walkLinks walk rest false sizeLocal                 (* continue *)
  | GetFailed err :: rest => (local, sizeLocal, Some err)
  | Found child :: rest =>
      match walk child with
      | (_, _, Some err) => (local, sizeLocal, Some err)
      | (childLocal, childLocalSize, None) =>
          walkLinks walk rest (local && childLocal)
                    (u64 (sizeLocal + childLocalSize))
      end
  end.

Fixpoint walkBlock (nd : Node) : walked :=
  match nd with
  | mkNode raw links =>
      walkLinks walkBlock links true (u64 (Z.of_nat (length raw)))
  end.

(** The first error of [dagserv.Get] on the way, depth first. *)
Fixpoint first_failure (failure : Node → option string) (links : list Link)
    : option string :=
  match links with
  | [] => None
  | Found child :: rest =>
      match failure child with
      | Some err => Some err
      | None => first_failure failure rest
      end
  | ErrNotFound :: rest => first_failure failure rest
  | GetFailed err :: _ => Some err
  end.

Fixpoint failure (nd : Node) : option string :=
  match nd with mkNode _ links => first_failure failure links end.

(** No link below the node is missing. *)
Fixpoint all_found (nd : Node) : bool :=
  match nd with
  | mkNode _ links =>
      forallb (λ l, match l with
                    | Found child => all_found child
                    | ErrNotFound => false
                    | GetFailed _ => true
                    end) links
  end.

(** The raw bytes of the node and of every block found below it, a block
    counted once for each path to it. *)
Fixpoint present_bytes (nd : Node) : Z :=
  match nd with
  | mkNode raw links =>
      (Z.of_nat (length raw)
       + foldr Z.add 0 (omap (λ l, match l with
                                   | Found child => Some (present_bytes child)
                                   | _ => None
                                   end) links))%Z
  end.

End WalkBlock.

(** ** What a schedule of provideWorker takes in and starts *)
Module ProvideWorkerTrace.
Import ProvideWorker.

(** The keys received from [bs.provideKeys], in order. *)
Fixpoint taken (acts : list action) : list cid.Cid :=
  match acts with
  | [] => []
  | RecvKey k :: rest => k :: taken rest
  | _ :: rest => taken rest
  end.

(** What the step [a] starts in state [s]: the key and the worker id that
    [go limitedGoProvide(k, wid)] passes. *)
Definition starts (s : state) (a : action) : list (cid.Cid * nat) :=
  match a, loop s with
  | Go, AtGo w k => [(k, w)]
  | _, _ => []
  end.

(** The goroutines started during a schedule, in order. *)
Fixpoint launched (provideWorkerMax : nat) (s : state) (acts : list action)
    : list (cid.Cid * nat) :=
  match acts with
  | [] => []
  | a :: rest =>
      match step provideWorkerMax s a with
      | Some s' => starts s a ++ launched provideWorkerMax s' rest
      | None => []
      end
  end.

(** The key that the spawner holds and has not handed to a goroutine. *)
Definition in_hand (s : state) : list cid.Cid :=
  match loop s with
  | AtLimit _ k | AtGo _ k => [k]
  | _ => []
  end.

(** The worker id of the next goroutine. *)
Definition next_wid (s : state) : option nat :=
  match loop s with
  | AtKeys w | AtLimit w _ | AtGo w _ => Some w
  | Returned => None
  end.

(** The steps that end the goroutine [i], whatever [Provide] gives. *)
Definition finish (t : task) (i : nat) : list action :=
  match pc t with
  | InProvide => [ProvideReturns i ProvideOk; Release i]
  | AtRelease _ => [Release i]
  end.

End ProvideWorkerTrace.

(** ** What a schedule of providerQueryManager leaves to do *)
Module ProviderQueryManagerTrace.
Import ProviderQueryManager.

(** One request for each key, each followed by its [go] statement. *)
Definition request_all (c : ctx_id) (keys : list cid.Cid) : list action :=
  keys ≫= λ k, [RecvReq (mkReq k c); Go].

(** The steps that end the search task [i] with nothing more arriving:
    the call if it was not made, the end of the providers channel, the
    return of every pending connection attempt, the removal. *)
Definition finish (t : task) (i : nat) : list action :=
  match pc t with
  | AtFind => [Find i; Exhausted i; Remove i]
  | AtRange wg =>
      Exhausted i :: replicate wg (ConnectReturns i true) ++ [Remove i]
  | AtWait wg => replicate wg (ConnectReturns i true) ++ [Remove i]
  end.

End ProviderQueryManagerTrace.

(** ** What a schedule of taskWorker sends *)
Module TaskWorkerTrace.
Import bsmsg TaskWorker.

Section Sent.
Context {M : Type} `{!BitSwapMessage M}.

(** The envelopes given to [SendBlocks], oldest first. *)
Definition sent (l : list (event M)) : list (Envelope M) :=
  omap (λ ev, match ev with SendBlocks env _ => Some env | _ => None end) l.

(** The peers given to [MessageSent], oldest first. *)
Definition notified (l : list (event M)) : list peer.ID :=
  omap (λ ev, match ev with MessageSent p _ => Some p | _ => None end) l.

(** The envelope that the step [a] receives in state [s]. *)
Definition receives (s : @state M) (a : @action M) : list (Envelope M) :=
  match a, pc s with
  | RecvEnvelope _, AtEnvelope (Ready envelope) => [envelope]
  | _, _ => []
  end.

(** The envelopes received during a schedule, in order. *)
Fixpoint received (s : @state M) (acts : list (@action M))
    : list (Envelope M) :=
  match acts with
  | [] => []
  | a :: rest =>
      match step s a with
      | Some s' => receives s a ++ received s' rest
      | None => []
      end
  end.

(** The envelopes that the other task workers counted during a
    schedule, in order. *)
Definition counted_by_others (acts : list (@action M)) : list (Envelope M) :=
  acts ≫= λ a, match a with OtherCounts envelope => [envelope] | _ => [] end.

(** The blocks and the raw bytes of a list of envelopes. *)
Definition blocks_of (envs : list (Envelope M)) : Z :=
  foldr (λ env n, Z.of_nat (length (Blocks (Message env))) + n)%Z 0%Z envs.

Definition bytes_of (envs : list (Envelope M)) : Z :=
  foldr (λ env n,
           foldr (λ b acc, Z.of_nat (length (blocks.RawData b)) + acc)%Z
                 0%Z (Blocks (Message env)) + n)%Z 0%Z envs.

End Sent.

End TaskWorkerTrace.

(** ** provideCollector and provideWorker joined by bs.provideKeys *)
Module ProvidePipeline.

(** The two loops and the buffer of the channel between them, oldest
    key first. *)
Record state := mkState {
  bridge : ProvideCollector.state;
  keys : list cid.Cid;
  pool : ProvideWorker.state
}.

Definition init : state :=
  {| bridge := ProvideCollector.init; keys := [];
     pool := ProvideWorker.init |}.

Inductive action :=
  | Bridge (a : ProvideCollector.action)   (* a step of provideCollector *)
  | Pool (a : ProvideWorker.action)        (* a step of provideWorker or of a goroutine *)
  | Handover.                              (* the send meets the waiting receive *)

Section Capacities.

(** The capacity of [bs.provideKeys] and [provideWorkerMax], both
    declared outside workers.go. *)
Variable provideKeysBufferSize : nat.
Variable provideWorkerMax : nat.

Definition step (s : state) (a : action) : option state :=
  match a with
  | Bridge ProvideCollector.SendKey =>
      (* a send into the buffer needs room *)
      if decide (length (keys s) < provideKeysBufferSize)
      then b ← ProvideCollector.step (bridge s) ProvideCollector.SendKey;
           Some {| bridge := b;
                   keys := keys s ++ [ProvideCollector.nextKey (bridge s)];
                   pool := pool s |}
      else None
  | Bridge a' =>
      b ← ProvideCollector.step (bridge s) a';
      Some {| bridge := b; keys := keys s; pool := pool s |}
  | Pool (ProvideWorker.RecvKey k) =>
      (* a receive takes the oldest key of the buffer *)
      match keys s with
      | k' :: rest =>
          if decide (k = k')
          then p ← ProvideWorker.step provideWorkerMax (pool s)
                     (ProvideWorker.RecvKey k);
               Some {| bridge := bridge s; keys := rest; pool := p |}
          else None
      | [] => None
      end
  | Pool ProvideWorker.KeysClosed =>
      (* !ok: the channel is closed and drained *)
      if ProvideCollector.closedKeys (bridge s)
      then match keys s with
           | [] =>
               p ← ProvideWorker.step provideWorkerMax (pool s)
                     ProvideWorker.KeysClosed;
               Some {| bridge := bridge s; keys := []; pool := p |}
           | _ => None
           end
      else None
  | Pool a' =>
      p ← ProvideWorker.step provideWorkerMax (pool s) a';
      Some {| bridge := bridge s; keys := keys s; pool := p |}
  | Handover =>
      match keys s with
      | [] =>
          b ← ProvideCollector.step (bridge s) ProvideCollector.SendKey;
          p ← ProvideWorker.step provideWorkerMax (pool s)
                (ProvideWorker.RecvKey (ProvideCollector.nextKey (bridge s)));
          Some {| bridge := b; keys := []; pool := p |}
      | _ => None
      end
  end.

Definition run : state → list action → option state := run_with step.

(** The goroutines started during a schedule, in order. *)
Fixpoint launched (s : state) (acts : list action) : list (cid.Cid * nat) :=
  match acts with
  | [] => []
  | a :: rest =>
      match step s a with
      | Some s' =>
          match a with
          | Pool a' => ProvideWorkerTrace.starts (pool s) a'
          | _ => []
          end ++ launched s' rest
      | None => []
      end
  end.

End Capacities.

(** The keys written to [bs.newBlocks] and received by the bridge. *)
Fixpoint received (acts : list action) : list cid.Cid :=
  match acts with
  | [] => []
  | Bridge (ProvideCollector.RecvBlock c) :: rest => c :: received rest
  | _ :: rest => received rest
  end.

End ProvidePipeline.

(** ** deserializeNode and nodeEmpty (core/coreapi/object.go, lines 339-373) *)
Module ObjectNode.

(** [Link] and [Node] of object.go, what [json.Unmarshal] fills in. *)
Record Link := mkLink { Name : string; Hash : string; Size : Z }.
Record Node := mkNode { Links : list Link; Data : string }.

(** [ipld.Link], and what [SetData] and [SetLinks] put into the new
    [dag.ProtoNode]. *)
Record ipldLink := mkIpldLink { lName : string; lSize : Z; lCid : cid.Cid }.
Record ProtoNode := mkProtoNode {
  data : list Byte.byte;
  links : list ipldLink
}.

(** The errors, by the statement that returns them. *)
Inductive failure (E : Type) :=
  | DecodeStringFailed (err : E)   (* base64.StdEncoding.DecodeString *)
  | UnknownEncoding                (* "unkown data field encoding" *)
  | CidDecodeFailed (err : E).     (* cid.Decode(link.Hash) *)
Arguments DecodeStringFailed {E}.
Arguments UnknownEncoding {E}.
Arguments CidDecodeFailed {E}.

Definition nodeEmpty (node : Node) : bool :=
  bool_decide (Data node = "") && bool_decide (length (Links node) = 0).

Section Decoders.

(** [base64.StdEncoding.DecodeString] and [cid.Decode], both outside
    this file. *)
Context {E : Type}.
Variable DecodeString : string → E + list Byte.byte.
Variable Decode : string → E + cid.Cid.

(** The loop of lines 356-366 over the links that are left. *)
Fixpoint decode_links (ls : list Link) : failure E + list ipldLink :=
  match ls with
  | [] => inr []
  | link :: rest =>
      match Decode (Hash link) with
      | inl err => inl (CidDecodeFailed err)
      | inr c =>
          match decode_links rest with
          | inl f => inl f
          | inr done => inr (mkIpldLink (Name link) (Size link) c :: done)
          end
      end
  end.

Definition decode_data (nd : Node) (dataFieldEncoding : string)
    : failure E + list Byte.byte :=
  if decide (dataFieldEncoding = "text")
  then inr (String.list_byte_of_string (Data nd))
  else if decide (dataFieldEncoding = "base64")
  then match DecodeString (Data nd) with
       | inl err => inl (DecodeStringFailed err)
       | inr bytes => inr bytes
       end
  else inl UnknownEncoding.

Definition deserializeNode (nd : Node) (dataFieldEncoding : string)
    : failure E + ProtoNode :=
  match decode_data nd dataFieldEncoding with
  | inl f => inl f
  | inr bytes =>
      match decode_links (Links nd) with
      | inl f => inl f
      | inr ls => inr (mkProtoNode bytes ls)
      end
  end.

End Decoders.

End ObjectNode.

(** * Properties *)

(** ** Schedules *)
Section Schedules.
Context {S A : Type} (step : S → A → option S).

Lemma run_with_app (xs ys : list A) (s s1 : S) :
  run_with step s xs = Some s1 →
  run_with step s (xs ++ ys) = run_with step s1 ys.
Proof.
  revert s. induction xs as [|a xs IH]; intros s Hr.
  - by injection Hr as <-.
  - simpl in *. destruct (step s a); [|done]. by apply IH.
Qed.

(** What every step keeps, every schedule keeps. *)
Lemma run_with_invariant (I : S → Prop) (acts : list A) (s s' : S) :
  (∀ s a s', I s → step s a = Some s' → I s') →
  I s → run_with step s acts = Some s' → I s'.
Proof.
  intros Hstep. revert s. induction acts as [|a acts IH]; intros s Hi Hr.
  - by injection Hr as <-.
  - simpl in Hr. destruct (step s a) as [s1|] eqn:Hs; [|done].
    apply (IH s1); [|done]. by apply (Hstep s a).
Qed.

End Schedules.

(** ** provideCollector: order, loss and close *)
Module ProvideCollectorSpec.
Import ProvideCollector.

Lemma step_returned (s : state) (a : action) :
  returned s = true → step s a = None.
Proof. intros H. unfold step. by rewrite H. Qed.

(** One step keeps the queue discipline: what was delivered, followed by
    what is held, grows by exactly the value received in that step. *)
Lemma step_conserves (s s' : state) (a : action) :
  idle_ok s → step s a = Some s' →
  idle_ok s' ∧
  provideKeys s' ++ held s' = (provideKeys s ++ held s) ++ received [a].
Proof.
  unfold idle_ok, step, held. intros Hi Hs.
  destruct (returned s); [done|].
  destruct a; simpl in *.
  - destruct (keysOut s) eqn:Hk; simplify_eq; simpl; split; try done.
    + by rewrite <- !app_assoc.
    + rewrite Hi by done. by rewrite app_nil_r.
  - simplify_eq. simpl. by rewrite app_nil_r.
  - destruct (keysOut s) eqn:Hk; [|done].
    destruct (toProvide s) as [|k rest] eqn:Hq; simplify_eq; simpl.
    + split; [done|]. by rewrite !app_nil_r.
    + split; [done|]. by rewrite app_nil_r, <- app_assoc.
  - simplify_eq. simpl. by rewrite app_nil_r.
Qed.

Lemma received_app (xs ys : list action) :
  received (xs ++ ys) = received xs ++ received ys.
Proof.
  induction xs as [|a xs IH]; simpl; [done|].
  destruct a; simpl; by rewrite IH.
Qed.

Lemma run_conserves (acts : list action) (s s' : state) :
  idle_ok s → run s acts = Some s' →
  idle_ok s' ∧
  provideKeys s' ++ held s' = (provideKeys s ++ held s) ++ received acts.
Proof.
  revert s. induction acts as [|a acts IH]; intros s Hi Hr.
  - injection Hr as <-. split; [done|]. by rewrite app_nil_r.
  - unfold run in Hr. simpl in Hr.
    destruct (step s a) as [s1|] eqn:Hs; [|done].
    destruct (step_conserves _ _ _ Hi Hs) as [Hi1 H1].
    destruct (IH s1 Hi1 Hr) as [Hi' H'].
    split; [done|].
    rewrite H', H1. change (a :: acts) with ([a] ++ acts).
    by rewrite received_app, app_assoc.
Qed.

(** A schedule without close and cancel leaves the loop running and the
    output open. *)
Lemma run_keeps_running (acts : list action) (s s' : state) :
  Forall (λ a, keeps_running a = true) acts →
  returned s = false →
  run s acts = Some s' →
  returned s' = false ∧ closedKeys s' = closedKeys s.
Proof.
  intros Hf. revert s. induction Hf as [|a acts Ha _ IH]; intros s Hret Hr.
  - by injection Hr as <-.
  - unfold run in Hr. simpl in Hr.
    destruct (step s a) as [s1|] eqn:Hs; [|done].
    assert (returned s1 = false ∧ closedKeys s1 = closedKeys s) as [R1 C1].
    { unfold step in Hs. rewrite Hret in Hs.
      destruct a; try done; simpl in Hs.
      - destruct (keysOut s); by simplify_eq.
      - destruct (keysOut s); [|done]. destruct (toProvide s); by simplify_eq. }
    destruct (IH s1 R1 Hr) as [? Hc]. split; [done|]. by rewrite Hc.
Qed.

(** The consumer drains: as long as something is held the send case is
    armed, and as many sends as there are held values empty the loop. *)
Lemma drain (n : nat) (s : state) :
  idle_ok s → returned s = false → length (held s) = n →
  ∃ s', run s (replicate n SendKey) = Some s' ∧
        provideKeys s' = provideKeys s ++ held s ∧
        keysOut s' = false ∧ toProvide s' = [] ∧
        returned s' = false ∧ closedKeys s' = closedKeys s.
Proof.
  revert s. induction n as [|n IH]; intros s Hi Hret Hl.
  - exists s. unfold held, idle_ok in *.
    destruct (keysOut s) eqn:Hk; [done|].
    apply nil_length_inv in Hl. rewrite Hl, app_nil_r. done.
  - unfold held in Hl. destruct (keysOut s) eqn:Hk.
    2:{ rewrite (Hi Hk) in Hl. done. }
    simpl in Hl. injection Hl as Hl.
    destruct (toProvide s) as [|k rest] eqn:Hq.
    + simpl in Hl. subst n. simpl. unfold run. simpl.
      unfold step. rewrite Hret, Hk, Hq. eexists. split; [done|]. simpl.
      unfold held. by rewrite Hk, Hq.
    + set (s1 := {| toProvide := rest; nextKey := k; keysOut := true;
                    provideKeys := provideKeys s ++ [nextKey s];
                    closedKeys := closedKeys s; returned := false |}).
      destruct (IH s1) as (s' & Hr & Hp & ? & ? & ? & ?); [done|done|done|].
      exists s'. split.
      * unfold run. simpl. unfold step. rewrite Hret, Hk, Hq. exact Hr.
      * rewrite Hp. unfold held. rewrite Hk, Hq. simpl.
        by rewrite <- app_assoc.
Qed.

Lemma count_absent (c : cid.Cid) (l : list cid.Cid) :
  c ∉ l → filter (λ x, x = c) l = [].
Proof.
  induction l as [|x l IH]; intros Hnin; [done|].
  apply not_elem_of_cons in Hnin as [Hne Hnin].
  rewrite filter_cons. destruct (decide (x = c)); [congruence|]. by apply IH.
Qed.

Lemma count_NoDup (c : cid.Cid) (l : list cid.Cid) :
  NoDup l → c ∈ l → length (filter (λ x, x = c) l) = 1.
Proof.
  induction 1 as [|x l Hx Hnd IH]; intros Hin; [by apply elem_of_nil in Hin|].
  rewrite filter_cons. destruct (decide (x = c)) as [->|Hne].
  - simpl. by rewrite count_absent.
  - apply elem_of_cons in Hin as [->|Hin]; [done|]. by apply IH.
Qed.

Lemma init_idle_ok : idle_ok init.
Proof. by intros _. Qed.

(** The output is closed exactly when the loop has returned. *)
Lemma closed_iff_returned (acts : list action) (s s' : state) :
  closedKeys s = returned s → run s acts = Some s' →
  closedKeys s' = returned s'.
Proof.
  revert s. induction acts as [|a acts IH]; intros s Hc Hr.
  - by injection Hr as <-.
  - unfold run in Hr. simpl in Hr.
    destruct (step s a) as [s1|] eqn:Hs; [|done].
    apply (IH s1); [|done].
    unfold step in Hs. destruct (returned s) eqn:Hret; [done|].
    destruct a; simpl in Hs.
    + destruct (keysOut s); by simplify_eq.
    + by simplify_eq.
    + destruct (keysOut s); [|done]. destruct (toProvide s); by simplify_eq.
    + by simplify_eq.
Qed.

(** Once the loop has returned no schedule moves it. *)
Lemma run_returned (acts : list action) (s s' : state) :
  returned s = true → run s acts = Some s' → s' = s.
Proof.
  intros Hret. destruct acts as [|a acts]; intros Hr.
  - by injection Hr.
  - unfold run in Hr. simpl in Hr. by rewrite step_returned in Hr.
Qed.

(** C3: for every schedule of input writes and output reads of a bridge
    that keeps running (input open, context live) and for pairwise
    distinct written ContentIDs, what was delivered followed by what is
    held is the written sequence; the bridge is still running with its
    output open; and a consumer that takes as many values as are held
    gets the whole written sequence, in order, each value exactly once. *)
Theorem provideCollector_order_exactly_once
    (acts : list action) (s : state) :
  Forall (λ a, keeps_running a = true) acts →
  NoDup (received acts) →
  run init acts = Some s →
  returned s = false ∧ closedKeys s = false ∧
  provideKeys s ++ held s = received acts ∧
  ∃ s', run s (replicate (length (held s)) SendKey) = Some s' ∧
        provideKeys s' = received acts ∧ held s' = [] ∧
        returned s' = false ∧ closedKeys s' = false ∧
        ∀ c, c ∈ received acts →
             length (filter (λ x, x = c) (provideKeys s')) = 1.
Proof.
  intros Hrun Hnd Hr.
  destruct (run_keeps_running acts init s Hrun eq_refl Hr) as [Hret Hcl].
  destruct (run_conserves _ _ _ init_idle_ok Hr) as [Hi Hcons].
  simpl in Hcons, Hcl.
  repeat split; try done.
  destruct (drain _ s Hi Hret eq_refl) as (s' & Hd & Hp & Hk & Hq & Hr' & Hc').
  exists s'. rewrite Hp, Hcons. repeat split; try done.
  - unfold held. by rewrite Hk.
  - congruence.
  - intros c Hc. by apply count_NoDup.
Qed.

(** Three values written, the consumer taking one in between. *)
Lemma provideCollector_order_witness :
  let acts := [RecvBlock "A"; RecvBlock "B"; SendKey; RecvBlock "C"] in
  let s := {| toProvide := ["C"]; nextKey := "B"; keysOut := true;
              provideKeys := ["A"]; closedKeys := false;
              returned := false |} in
  Forall (λ a, keeps_running a = true) acts ∧
  NoDup (received acts) ∧
  run init acts = Some s ∧
  ∃ s', run s (replicate (length (held s)) SendKey) = Some s' ∧
        provideKeys s' = ["A"; "B"; "C"].
Proof.
  intros acts s.
  assert (Forall (λ a, keeps_running a = true) acts) as H1
    by (repeat constructor).
  assert (NoDup (received acts)) as H2
    by (apply (bool_decide_unpack _); vm_compute; exact I).
  assert (run init acts = Some s) as H3 by reflexivity.
  repeat split; try done.
  destruct (provideCollector_order_exactly_once acts s H1 H2 H3)
    as (_ & _ & _ & s' & Hd & Hp & _).
  by exists s'.
Defined.

(** C2, as stated, fails: two values are written, the input is closed
    before the consumer takes anything, and the loop returns and closes
    the output with the armed "A" and the queued "B" undelivered; nothing
    can be delivered afterwards. *)
Lemma provideCollector_close_drops_held :
  ∃ s, run init [RecvBlock "A"; RecvBlock "B"; RecvClosed] = Some s ∧
       closedKeys s = true ∧
       provideKeys s = [] ∧ held s = ["A"; "B"] ∧
       ∀ a, step s a = None.
Proof.
  eexists. split; [reflexivity|]. by repeat split.
Qed.

(** C2, amended: at every moment what was delivered, followed by what is
    held, is what was received, and the output is closed exactly when the
    loop has returned.  When a running loop sees its input closed it
    returns at once and the output is closed at once: what was delivered
    stays as it was, the armed candidate and the queue are still held,
    and no later step delivers them. *)
Theorem provideCollector_close_returns_at_once
    (acts : list action) (s : state) :
  run init acts = Some s →
  provideKeys s ++ held s = received acts ∧
  closedKeys s = returned s ∧
  (returned s = false →
   ∃ s', step s RecvClosed = Some s' ∧
         returned s' = true ∧ closedKeys s' = true ∧
         provideKeys s' = provideKeys s ∧ held s' = held s ∧
         ∀ acts' s'', run s' acts' = Some s'' →
                      provideKeys s'' = provideKeys s).
Proof.
  intros Hr.
  destruct (run_conserves _ _ _ init_idle_ok Hr) as [_ Hcons].
  split; [exact Hcons|].
  split; [by apply (closed_iff_returned acts init)|].
  intros Hret. exists (leave s). unfold step. rewrite Hret.
  repeat split.
  intros acts' s'' Hr'. by rewrite (run_returned acts' (leave s) s'').
Qed.

Lemma provideCollector_close_witness :
  let acts := [RecvBlock "A"; RecvBlock "B"; SendKey] in
  let s := {| toProvide := []; nextKey := "B"; keysOut := true;
              provideKeys := ["A"]; closedKeys := false;
              returned := false |} in
  run init acts = Some s ∧
  provideKeys s ++ held s = received acts ∧
  closedKeys s = returned s.
Proof.
  intros acts s.
  assert (run init acts = Some s) as H by reflexivity.
  split; [exact H|].
  destruct (provideCollector_close_returns_at_once acts s H) as (H1 & H2 & _).
  by split.
Defined.

End ProvideCollectorSpec.

(** ** provideWorker: the semaphore bounds the running announcements *)
Module ProvideWorkerSpec.
Import ProvideWorker.

(** Every goroutine that has not returned, and the one about to be
    started, holds one token of [limit]; the buffer never holds more than
    its capacity. *)
Definition tokens_ok (W : nat) (s : state) : Prop :=
  limit s = length (tasks s) + about_to_go s ∧ limit s ≤ W.

Lemma step_tokens_ok (W : nat) (s s' : state) (a : action) :
  tokens_ok W s → step W s a = Some s' → tokens_ok W s'.
Proof.
  unfold tokens_ok, about_to_go. intros [Hl Hw] Hs. destruct a; simpl in Hs.
  - destruct (loop s); by simplify_eq.
  - destruct (loop s); by simplify_eq.
  - destruct (loop s); by simplify_eq.
  - destruct (loop s); try done. case_decide; [|done]. simplify_eq. simpl.
    lia.
  - destruct (loop s); try done. simplify_eq. simpl.
    rewrite length_app. simpl. lia.
  - destruct (tasks s !! i) as [[k w []]|] eqn:Ht; try done.
    simplify_eq. simpl. by rewrite length_insert.
  - destruct (tasks s !! i) as [[k w []]|] eqn:Ht; try done.
    destruct (limit s) as [|n] eqn:Hn; [done|]. simplify_eq. simpl.
    rewrite length_delete by eauto. apply lookup_lt_Some in Ht.
    destruct (loop s); lia.
  - destruct (tasks s !! i) as [[k w []]|] eqn:Ht; try done.
    destruct (loop s); try done. case_decide; [|done]. simplify_eq. simpl.
    apply lookup_lt_Some in Ht. lia.
Qed.

Lemma run_tokens_ok (W : nat) (acts : list action) (s s' : state) :
  tokens_ok W s → run W s acts = Some s' → tokens_ok W s'.
Proof.
  apply run_with_invariant. intros s1 a s2. apply step_tokens_ok.
Qed.

Lemma init_tokens_ok (W : nat) : tokens_ok W init.
Proof. unfold tokens_ok, about_to_go. simpl. lia. Qed.

(** A goroutine is started by the [go] statement and by nothing else. *)
Lemma launch_by_go (W : nat) (s s' : state) (a : action) :
  step W s a = Some s' →
  length (tasks s') = S (length (tasks s)) →
  a = Go ∧ about_to_go s = 1.
Proof.
  unfold about_to_go. intros Hs Hlen. destruct a; simpl in Hs.
  - destruct (loop s); simplify_eq; simpl in *; lia.
  - destruct (loop s); simplify_eq; simpl in *; lia.
  - destruct (loop s); simplify_eq; simpl in *; lia.
  - destruct (loop s); try done. case_decide; [|done].
    simplify_eq. simpl in *. lia.
  - by destruct (loop s).
  - destruct (tasks s !! i) as [[k w []]|] eqn:Ht; try done.
    simplify_eq. simpl in Hlen. rewrite length_insert in Hlen. lia.
  - destruct (tasks s !! i) as [[k w []]|] eqn:Ht; try done.
    destruct (limit s) as [|n] eqn:Hn; [done|]. simplify_eq. simpl in Hlen.
    rewrite length_delete in Hlen by eauto. lia.
  - destruct (tasks s !! i) as [[k w []]|] eqn:Ht; try done.
    destruct (loop s); try done. case_decide; [|done].
    simplify_eq. simpl in Hlen.
    rewrite length_delete in Hlen by eauto. lia.
Qed.

(** C4: for every capacity W and every schedule,
    (1) at most W goroutines are inside [Provide];
    (2) the tokens in [limit] are the live goroutines plus the one about
        to be started, and they are never more than W;
    (3) a goroutine is started only by the [go] statement, which the
        spawner reaches only with its token already in [limit];
    (4) a goroutine inside [Provide] can return with any result
        (success, failure, timeout);
    (5) whatever that result was, its deferred [<-limit] can then fire,
        takes one token out and ends the goroutine. *)
Theorem provideWorker_bounded_parallelism
    (W : nat) (acts : list action) (s : state) :
  run W init acts = Some s →
  length (filter (λ t, in_provide t = true) (tasks s)) ≤ W ∧
  (limit s = length (tasks s) + about_to_go s ∧ limit s ≤ W) ∧
  (∀ a s', step W s a = Some s' →
           length (tasks s') = S (length (tasks s)) →
           a = Go ∧ about_to_go s = 1 ∧ length (tasks s') ≤ limit s') ∧
  (∀ i k w, tasks s !! i = Some (mkTask k w InProvide) →
     ∀ res, ∃ s', step W s (ProvideReturns i res) = Some s' ∧
                  tasks s' !! i = Some (mkTask k w (AtRelease res))) ∧
  (∀ i k w res, tasks s !! i = Some (mkTask k w (AtRelease res)) →
     ∃ s', step W s (Release i) = Some s' ∧
           S (limit s') = limit s ∧ tasks s' = delete i (tasks s)).
Proof.
  intros Hr.
  pose proof (run_tokens_ok W acts init s (init_tokens_ok W) Hr) as Hok.
  pose proof Hok as [Hl Hw].
  split; [|split; [done|split; [|split]]].
  - pose proof (length_filter (λ t, in_provide t = true) (tasks s)). lia.
  - intros a s' Hs Hlen.
    destruct (launch_by_go W s s' a Hs Hlen) as [-> Hgo].
    split; [done|]. split; [done|].
    destruct (step_tokens_ok W s s' Go Hok Hs) as [Hl' _]. lia.
  - intros i k w Ht res. simpl. rewrite Ht. eexists. split; [done|]. simpl.
    apply list_lookup_insert_eq. by apply lookup_lt_Some in Ht.
  - intros i k w res Ht. simpl. rewrite Ht.
    destruct (limit s) as [|n] eqn:Hn.
    + apply lookup_lt_Some in Ht. lia.
    + by eexists.
Qed.

(** A pool of capacity 1 that is offered three keys: the second waits
    for the token of the first, the third for that of the second. *)
Lemma provideWorker_bounded_witness :
  let acts := [RecvKey "A"; Acquire; Go; RecvKey "B";
               ProvideReturns 0 ProvideTimedOut; Release 0; Acquire; Go;
               RecvKey "C"] in
  let s := {| limit := 1; loop := AtLimit 4 "C";
              tasks := [mkTask "B" 3 InProvide]; warnings := 1 |} in
  run 1 init acts = Some s ∧
  length (filter (λ t, in_provide t = true) (tasks s)) ≤ 1 ∧
  step 1 s Acquire = None.
Proof.
  intros acts s.
  assert (run 1 init acts = Some s) as H by reflexivity.
  split; [exact H|].
  split; [|reflexivity].
  exact (proj1 (provideWorker_bounded_parallelism 1 acts s H)).
Defined.

End ProvideWorkerSpec.

(** ** providerQueryManager: one search per ContentID at a time *)
Module ProviderQueryManagerSpec.
Import ProviderQueryManager ProviderQueryManagerTrace.

Section Counting.
Context {A : Type} (P : A → bool).

Definition weight (x : A) : nat := if P x then 1 else 0.

Lemma count_app (l1 l2 : list A) :
  count P (l1 ++ l2) = count P l1 + count P l2.
Proof. induction l1 as [|x l1 IH]; simpl; [done|]. rewrite IH. lia. Qed.

Lemma count_insert (l : list A) (i : nat) (t t' : A) :
  l !! i = Some t →
  count P (<[i := t']> l) + weight t = count P l + weight t'.
Proof.
  revert i. induction l as [|x l IH]; intros [|i] Hl; simplify_eq/=.
  - unfold weight. lia.
  - specialize (IH i Hl). lia.
Qed.

Lemma count_delete (l : list A) (i : nat) (t : A) :
  l !! i = Some t → count P (delete i l) + weight t = count P l.
Proof.
  revert i. induction l as [|x l IH]; intros [|i] Hl; simplify_eq/=.
  - unfold weight. lia.
  - specialize (IH i Hl). lia.
Qed.

End Counting.

(** The two counting invariants, for one ContentID: it is in the set
    exactly when one task for it is in flight, and every search that was
    ever started and has got past its first statement has called
    [FindProvidersAsync] exactly once. *)
Definition dedup_inv (s : state) : Prop :=
  ∀ k, in_flight k s = member k s ∧
       finds k s + not_called k s = removes k s + in_flight k s.

Lemma init_dedup_inv : dedup_inv init.
Proof. intros k. by vm_compute. Qed.

Lemma elem_add_b (k c : cid.Cid) (X : gset cid.Cid) :
  bool_decide (k ∈ {[c]} ∪ X) = bool_decide (c = k) || bool_decide (k ∈ X).
Proof.
  apply eq_true_iff_eq.
  rewrite orb_true_iff, !bool_decide_eq_true, elem_of_union, elem_of_singleton.
  intuition congruence.
Qed.

Lemma elem_remove_b (k c : cid.Cid) (X : gset cid.Cid) :
  bool_decide (k ∈ X ∖ {[c]})
  = negb (bool_decide (c = k)) && bool_decide (k ∈ X).
Proof.
  apply eq_true_iff_eq.
  rewrite andb_true_iff, negb_true_iff, bool_decide_eq_false.
  rewrite !bool_decide_eq_true, elem_of_difference, elem_of_singleton.
  intuition congruence.
Qed.

Ltac count_cases :=
  unfold weight, uncalled, searches, member, about_to_go in *; simpl in *;
  rewrite ?elem_add_b, ?elem_remove_b in *;
  repeat case_bool_decide; simpl in *; simplify_eq; try done; try lia.

Lemma step_dedup_inv (ctx : ctx_id) (s s' : state) (a : action) :
  dedup_inv s → step ctx s a = Some s' → dedup_inv s'.
Proof.
  intros Hinv Hs k. destruct (Hinv k) as [H1 H2].
  unfold in_flight, not_called, finds, removes in *.
  destruct a; simpl in Hs.
  - simplify_eq. simpl. unfold member, about_to_go in *. simpl. done.
  - destruct (loop s) eqn:Hl; try done.
    repeat case_decide; simplify_eq; try done.
    unfold about_to_go in *. rewrite Hl in *. simpl. split; count_cases.
  - destruct (loop s) eqn:Hl; try done. simplify_eq.
    unfold about_to_go in *. rewrite Hl in *. simpl.
    rewrite !count_app. simpl. split; count_cases.
  - destruct (loop s) eqn:Hl; try done. case_decide; [|done]. simplify_eq.
    unfold about_to_go in *. rewrite Hl in *. simpl. done.
  - destruct (tasks s !! i) as [[e []]|] eqn:Ht; try done. simplify_eq.
    pose proof (count_insert (searches k) _ _ _ (mkTask e (AtRange 0)) Ht).
    pose proof (count_insert (uncalled k) _ _ _ (mkTask e (AtRange 0)) Ht).
    simpl. split; count_cases.
  - destruct (tasks s !! i) as [[e []]|] eqn:Ht; try done. simplify_eq.
    pose proof (count_insert (searches k) _ _ _ (mkTask e (AtRange (S wg))) Ht).
    pose proof (count_insert (uncalled k) _ _ _ (mkTask e (AtRange (S wg))) Ht).
    simpl. split; count_cases.
  - destruct (tasks s !! i) as [[e []]|] eqn:Ht; try done. simplify_eq.
    pose proof (count_insert (searches k) _ _ _ (mkTask e (AtWait wg)) Ht).
    pose proof (count_insert (uncalled k) _ _ _ (mkTask e (AtWait wg)) Ht).
    simpl. split; count_cases.
  - destruct (tasks s !! i) as [[e [|[|n]|[|n]]]|] eqn:Ht; try done;
      simplify_eq.
    + pose proof (count_insert (searches k) _ _ _ (mkTask e (AtRange n)) Ht).
      pose proof (count_insert (uncalled k) _ _ _ (mkTask e (AtRange n)) Ht).
      simpl. split; count_cases.
    + pose proof (count_insert (searches k) _ _ _ (mkTask e (AtWait n)) Ht).
      pose proof (count_insert (uncalled k) _ _ _ (mkTask e (AtWait n)) Ht).
      simpl. split; count_cases.
  - destruct (tasks s !! i) as [[e [| |[|n]]]|] eqn:Ht; try done.
    simplify_eq.
    pose proof (count_delete (searches k) _ _ _ Ht).
    pose proof (count_delete (uncalled k) _ _ _ Ht).
    simpl. split; count_cases.
Qed.

Lemma run_dedup_inv (ctx : ctx_id) (acts : list action) (s s' : state) :
  dedup_inv s → run ctx s acts = Some s' → dedup_inv s'.
Proof.
  apply run_with_invariant. intros s1 a s2. apply step_dedup_inv.
Qed.

Lemma uncalled_le_searches (k : cid.Cid) (l : list task) :
  count (uncalled k) l ≤ count (searches k) l.
Proof.
  induction l as [|t l IH]; simpl; [done|].
  unfold uncalled at 1. destruct (searches k t); simpl; [|done].
  destruct (pc t); lia.
Qed.

(** The set loses [k] only in the step that logs its removal. *)
Lemma step_keeps_member (ctx : ctx_id) (s s' : state) (a : action)
    (k : cid.Cid) :
  step ctx s a = Some s' →
  removes k s ≤ removes k s' ∧ finds k s ≤ finds k s' ∧
  (removes k s' = removes k s → k ∈ kset s → k ∈ kset s').
Proof.
  intros Hs. unfold removes, finds. destruct a; simpl in Hs.
  - by simplify_eq.
  - destruct (loop s); try done. repeat case_decide; simplify_eq; try done.
    simpl. repeat split; try done. intros _ Hk. apply elem_of_union. by right.
  - destruct (loop s); by simplify_eq.
  - destruct (loop s); try done. case_decide; by simplify_eq.
  - destruct (tasks s !! i) as [[e []]|]; try done. simplify_eq. simpl.
    repeat split; try done. lia.
  - destruct (tasks s !! i) as [[e []]|]; by simplify_eq.
  - destruct (tasks s !! i) as [[e []]|]; by simplify_eq.
  - destruct (tasks s !! i) as [[e [|[|n]|[|n]]]|]; by simplify_eq.
  - destruct (tasks s !! i) as [[e [| |[|n]]]|]; try done. simplify_eq. simpl.
    split; [lia|]. split; [done|]. case_bool_decide; [lia|].
    intros _ Hk. apply elem_of_difference. split; [done|].
    rewrite elem_of_singleton. congruence.
Qed.

Lemma run_keeps_member (ctx : ctx_id) (acts : list action) (s s' : state)
    (k : cid.Cid) :
  run ctx s acts = Some s' →
  removes k s ≤ removes k s' ∧ finds k s ≤ finds k s' ∧
  (removes k s' = removes k s → k ∈ kset s → k ∈ kset s').
Proof.
  revert s. induction acts as [|a acts IH]; intros s Hr.
  - by injection Hr as <-.
  - unfold run in Hr. simpl in Hr.
    destruct (step ctx s a) as [s1|] eqn:Hs; [|done].
    destruct (step_keeps_member ctx s s1 a k Hs) as (Hr1 & Hf1 & Hk1).
    destruct (IH s1 Hr) as (Hr2 & Hf2 & Hk2).
    split; [lia|]. split; [lia|].
    intros Heq Hk. apply Hk2; [lia|]. apply Hk1; [lia|done].
Qed.

Lemma member_1 (k : cid.Cid) (s : state) : k ∈ kset s → member k s = 1.
Proof. intros H. unfold member. by rewrite bool_decide_eq_true_2. Qed.

Lemma member_0 (k : cid.Cid) (s : state) : k ∉ kset s → member k s = 0.
Proof. intros H. unfold member. by rewrite bool_decide_eq_false_2. Qed.

(** A request for a ContentID that is not in the set, with a live
    context, is accepted; the [go] statement starts its task and the
    task makes its call. *)
Lemma accepts_new (ctx : ctx_id) (s : state) (k : cid.Cid) (c : ctx_id) :
  dedup_inv s → k ∉ kset s → loop s = AtSelect → c ∉ done s →
  ∃ s1 s2 s3, step ctx s (RecvReq (mkReq k c)) = Some s1 ∧
              k ∈ kset s1 ∧ step ctx s1 Go = Some s2 ∧
              tasks s2 = tasks s ++ [mkTask (mkReq k c) AtFind] ∧
              in_flight k s2 = 1 ∧
              step ctx s2 (Find (length (tasks s))) = Some s3 ∧
              in_flight k s3 = 1 ∧ finds k s3 = S (finds k s).
Proof.
  intros Hinv Hk Hl Hc. destruct (Hinv k) as [H1 _].
  rewrite (member_0 _ _ Hk) in H1. unfold in_flight in H1.
  set (new := mkTask (mkReq k c) AtFind).
  exists {| done := done s; kset := {[k]} ∪ kset s; loop := AtGo (mkReq k c);
            tasks := tasks s; trace := trace s |},
         {| done := done s; kset := {[k]} ∪ kset s; loop := AtSelect;
            tasks := tasks s ++ [new]; trace := trace s |},
         {| done := done s; kset := {[k]} ∪ kset s; loop := AtSelect;
            tasks := tasks s ++ [mkTask (mkReq k c) (AtRange 0)];
            trace := FindProvidersAsync k :: trace s |}.
  split.
  { simpl. rewrite Hl. simpl.
    rewrite decide_False by done. by rewrite decide_False by done. }
  split; [apply elem_of_union; left; by apply elem_of_singleton|].
  split; [done|]. split; [done|].
  assert (∀ t, searches k t = true →
               count (searches k) (tasks s ++ [t]) = 1) as Hone.
  { intros t Ht. rewrite count_app. simpl. rewrite Ht. lia. }
  split.
  { unfold in_flight, about_to_go. simpl. rewrite Hone; [lia|].
    unfold searches. simpl. by rewrite bool_decide_eq_true_2. }
  split.
  { cbn [step tasks]. rewrite list_lookup_middle by done. subst new.
    cbn [done kset loop trace tasks Cid req]. do 2 f_equal.
    replace (length (tasks s)) with (length (tasks s) + 0) by lia.
    by rewrite insert_app_r. }
  split.
  { unfold in_flight, about_to_go. simpl. rewrite Hone; [lia|].
    unfold searches. simpl. by rewrite bool_decide_eq_true_2. }
  unfold finds. simpl. by rewrite bool_decide_eq_true_2.
Qed.

Section Attempts.
Context {A : Type} (f : A → nat).

Lemma foldr_insert (l : list A) (i : nat) (t t' : A) :
  l !! i = Some t →
  foldr (λ x n, f x + n) 0 (<[i := t']> l) + f t
  = foldr (λ x n, f x + n) 0 l + f t'.
Proof.
  revert i. induction l as [|x l IH]; intros [|i] Hl; simplify_eq/=.
  - lia.
  - specialize (IH i Hl). lia.
Qed.

Lemma foldr_delete (l : list A) (i : nat) (t : A) :
  l !! i = Some t →
  foldr (λ x n, f x + n) 0 (delete i l) + f t = foldr (λ x n, f x + n) 0 l.
Proof.
  revert i. induction l as [|x l IH]; intros [|i] Hl; simplify_eq/=.
  - lia.
  - specialize (IH i Hl). lia.
Qed.

Lemma delete_insert_same (l : list A) (i : nat) (x : A) :
  delete i (<[i := x]> l) = delete i l.
Proof.
  revert i. induction l as [|y l IH]; intros [|i]; simpl; try done.
  by rewrite IH.
Qed.

End Attempts.

(** Every call of [ConnectTo] adds one to the WaitGroup of its task and
    every return takes one off; a task leaves only with its WaitGroup at
    zero. *)
Lemma step_attempts (ctx : ctx_id) (s s' : state) (a : action) :
  step ctx s a = Some s' →
  connects s' + pending s
  = connects s + (if is_return a then 1 else 0) + pending s'.
Proof.
  intros Hs. unfold connects, pending. destruct a; simpl in Hs.
  - simplify_eq. simpl. lia.
  - destruct (loop s); try done. repeat case_decide; simplify_eq; simpl; lia.
  - destruct (loop s); try done. simplify_eq. simpl.
    rewrite foldr_app. simpl.
    assert (∀ (l : list task) z,
              foldr (λ t n, open_attempts t + n) z l
              = foldr (λ t n, open_attempts t + n) 0 l + z) as Hz.
    { intros l z. induction l as [|x l IH]; simpl; [done|]. rewrite IH. lia. }
    rewrite (Hz _ (0 + 0)). lia.
  - destruct (loop s); try done. case_decide; simplify_eq; simpl; lia.
  - destruct (tasks s !! i) as [[e []]|] eqn:Ht; try done. simplify_eq.
    pose proof (foldr_insert open_attempts _ _ _ (mkTask e (AtRange 0)) Ht).
    simpl in *. unfold open_attempts in *. simpl in *. lia.
  - destruct (tasks s !! i) as [[e []]|] eqn:Ht; try done. simplify_eq.
    pose proof (foldr_insert open_attempts _ _ _
                  (mkTask e (AtRange (S wg))) Ht).
    simpl in *. unfold open_attempts in *. simpl in *. lia.
  - destruct (tasks s !! i) as [[e []]|] eqn:Ht; try done. simplify_eq.
    pose proof (foldr_insert open_attempts _ _ _ (mkTask e (AtWait wg)) Ht).
    simpl in *. unfold open_attempts in *. simpl in *. lia.
  - destruct (tasks s !! i) as [[e [|[|n]|[|n]]]|] eqn:Ht; try done;
      simplify_eq.
    + pose proof (foldr_insert open_attempts _ _ _ (mkTask e (AtRange n)) Ht).
      simpl in *. unfold open_attempts in *. simpl in *. lia.
    + pose proof (foldr_insert open_attempts _ _ _ (mkTask e (AtWait n)) Ht).
      simpl in *. unfold open_attempts in *. simpl in *. lia.
  - destruct (tasks s !! i) as [[e [| |[|n]]]|] eqn:Ht; try done.
    simplify_eq.
    pose proof (foldr_delete open_attempts _ _ _ Ht).
    simpl in *. unfold open_attempts in *. simpl in *. lia.
Qed.

Lemma run_attempts (ctx : ctx_id) (acts : list action) (s s' : state) :
  run ctx s acts = Some s' →
  connects s' + pending s = connects s + returned_attempts acts + pending s'.
Proof.
  revert s. induction acts as [|a acts IH]; intros s Hr.
  - injection Hr as <-. unfold returned_attempts. simpl. lia.
  - unfold run in Hr. simpl in Hr.
    destruct (step ctx s a) as [s1|] eqn:Hs; [|done].
    pose proof (step_attempts ctx s s1 a Hs). specialize (IH s1 Hr).
    unfold returned_attempts in *. simpl. lia.
Qed.

(** A task in [wg.Wait()]: its pending connection attempts return, then
    it removes its key and is gone. *)
Lemma wait_out (ctx : ctx_id) (wg : nat) (s : state) (i : nat)
    (e : blockRequest) :
  tasks s !! i = Some (mkTask e (AtWait wg)) →
  ∃ s', run ctx s (replicate wg (ConnectReturns i true) ++ [Remove i])
        = Some s' ∧
        tasks s' = delete i (tasks s) ∧ kset s' = kset s ∖ {[Cid e]} ∧
        loop s' = loop s ∧ done s' = done s ∧
        trace s' = Removed (Cid e) :: trace s.
Proof.
  revert s. induction wg as [|wg IH]; intros s Ht.
  - unfold run. simpl. rewrite Ht. by eexists.
  - destruct (IH (set_task s i (mkTask e (AtWait wg))))
      as (s' & Hr & Ht' & Hk & Hl & Hd & Htr).
    { simpl. apply list_lookup_insert_eq. by eapply lookup_lt_Some. }
    exists s'. split.
    + unfold run. simpl. rewrite Ht. exact Hr.
    + simpl in *. by rewrite delete_insert_same in Ht'.
Qed.

(** Any task can run to its end by its own steps: the call if it was not
    made, the end of the providers channel, the return of every pending
    connection attempt, the removal. *)
Lemma finish_task (ctx : ctx_id) (s : state) (i : nat) (t : task) :
  tasks s !! i = Some t →
  ∃ s', run ctx s (finish t i) = Some s' ∧
        tasks s' = delete i (tasks s) ∧
        kset s' = kset s ∖ {[Cid (req t)]} ∧
        loop s' = loop s ∧ done s' = done s ∧
        ∀ k, removes k s'
             = removes k s + (if bool_decide (Cid (req t) = k) then 1 else 0).
Proof.
  intros Ht. destruct t as [e p]. destruct s as [d ks lp ts tr].
  simpl in Ht.
  assert (i < length ts) as Hi by (by eapply lookup_lt_Some).
  assert (∀ wg tr0,
            ∃ s', run ctx {| done := d; kset := ks; loop := lp;
                             tasks := <[i := mkTask e (AtWait wg)]> ts;
                             trace := tr0 |}
                      (replicate wg (ConnectReturns i true) ++ [Remove i])
                  = Some s' ∧
                  tasks s' = delete i ts ∧ kset s' = ks ∖ {[Cid e]} ∧
                  loop s' = lp ∧ done s' = d ∧
                  trace s' = Removed (Cid e) :: tr0) as Hwait.
  { intros wg tr0.
    destruct (wait_out ctx wg
                {| done := d; kset := ks; loop := lp;
                   tasks := <[i := mkTask e (AtWait wg)]> ts;
                   trace := tr0 |} i e)
      as (s' & Hr & Ht' & ? & ? & ? & ?).
    { simpl. by apply list_lookup_insert_eq. }
    exists s'. simpl in *. by rewrite delete_insert_same in Ht'. }
  destruct p as [|wg|wg]; unfold finish; simpl.
  - destruct (Hwait 0 (FindProvidersAsync (Cid e) :: tr))
      as (s' & Hr & ? & ? & ? & ? & Htr).
    exists s'. split.
    + unfold run in *. simpl. rewrite Ht. simpl.
      rewrite list_lookup_insert_eq by done. simpl.
      unfold set_task. simpl. rewrite list_insert_insert_eq. exact Hr.
    + repeat split; try done. intros k. unfold removes. rewrite Htr. simpl.
      lia.
  - destruct (Hwait wg tr) as (s' & Hr & ? & ? & ? & ? & Htr).
    exists s'. split.
    + unfold run in *. simpl. rewrite Ht. simpl. exact Hr.
    + repeat split; try done. intros k. unfold removes. rewrite Htr. simpl.
      lia.
  - destruct (Hwait wg tr) as (s' & Hr & ? & ? & ? & ? & Htr).
    exists s'. split.
    + rewrite list_insert_id in Hr by done. exact Hr.
    + repeat split; try done. intros k. unfold removes. rewrite Htr. simpl.
      lia.
Qed.

(** C1: in every reachable state and for every ContentID k:
    (1) k is in the set exactly when one discovery task for k is in
        flight, and there is never more than one;
    (2) while k is in the set, a request for k that the manager takes to
        its check under [activeLk] is dropped and changes nothing;
    (3) however the run goes on, as long as no removal of k has been
        logged, k stays in the set, one task stays in flight, and
        [FindProvidersAsync] is called for k at most once more: exactly
        once if the task in flight had not called it yet, never if it had
        (so any number of requests for k in between add no call);
    (4) over the whole run, every search for k that got past its first
        statement called [FindProvidersAsync] exactly once;
    (5) when the connection attempts of the task for k are over, its
        next step removes k from the set and leaves no task in flight;
    (6) when k is not in the set, a request for k with a live context is
        accepted: k enters the set and the [go] statement starts a new
        search task for it;
    (7) the task for k can take its removal step exactly when it is in
        [wg.Wait()] with none of its connection attempts open, and not
        before; and it always gets there by its own steps: after its
        call (if not made yet), the end of the providers channel and the
        return of each open connection attempt, it removes k, so that k
        is out of the set, no task for k is in flight, and a request for
        k with a live context starts a second search that calls
        [FindProvidersAsync] again;
    (8) every call of [ConnectTo] made so far has returned or is counted
        open by a task that has not removed its key yet: no task has
        removed its key with an attempt of its own open. *)
Theorem providerQueryManager_dedup
    (ctx : ctx_id) (acts : list action) (s : state) (k : cid.Cid) :
  run ctx init acts = Some s →
  (in_flight k s = member k s ∧ in_flight k s ≤ 1) ∧
  (k ∈ kset s → loop s = AtSelect →
   ∀ c, step ctx s (RecvReq (mkReq k c)) = Some s) ∧
  (k ∈ kset s → ∀ acts' s',
     run ctx s acts' = Some s' → removes k s' = removes k s →
     k ∈ kset s' ∧ in_flight k s' = 1 ∧
     finds k s' + not_called k s' = finds k s + not_called k s ∧
     finds k s ≤ finds k s' ∧ finds k s' ≤ finds k s + 1) ∧
  finds k s + not_called k s = removes k s + in_flight k s ∧
  (∀ i e, tasks s !! i = Some (mkTask e (AtWait 0)) → Cid e = k →
     ∃ s', step ctx s (Remove i) = Some s' ∧
           (k ∉ kset s') ∧ in_flight k s' = 0 ∧
           trace s' = Removed k :: trace s) ∧
  (k ∉ kset s → loop s = AtSelect → ∀ c, c ∉ done s →
     ∃ s1 s2, step ctx s (RecvReq (mkReq k c)) = Some s1 ∧
              k ∈ kset s1 ∧ step ctx s1 Go = Some s2 ∧
              tasks s2 = tasks s ++ [mkTask (mkReq k c) AtFind] ∧
              in_flight k s2 = 1) ∧
  (∀ i t, tasks s !! i = Some t → Cid (req t) = k →
     (is_Some (step ctx s (Remove i)) ↔ pc t = AtWait 0) ∧
     ∃ s', run ctx s (finish t i) = Some s' ∧
           (k ∉ kset s') ∧ in_flight k s' = 0 ∧
           removes k s' = S (removes k s) ∧
           tasks s' = delete i (tasks s) ∧
           loop s' = loop s ∧ done s' = done s ∧
           (loop s = AtSelect → ∀ c, c ∉ done s →
            ∃ s'', run ctx s' [RecvReq (mkReq k c); Go;
                               Find (length (tasks s'))] = Some s'' ∧
                   in_flight k s'' = 1 ∧ finds k s'' = S (finds k s'))) ∧
  connects s = returned_attempts acts + pending s.
Proof.
  intros Hr.
  pose proof (run_dedup_inv ctx acts init s init_dedup_inv Hr) as Hinv.
  destruct (Hinv k) as [H1 H2].
  split; [|split; [|split; [|split; [done|split; [|split; [|split]]]]]].
  - split; [done|]. rewrite H1. unfold member. case_bool_decide; lia.
  - intros Hk Hl c. simpl. rewrite Hl. simpl.
    case_decide; [done|]. by rewrite decide_True.
  - intros Hk acts' s' Hr' Hrem.
    destruct (run_keeps_member ctx acts' s s' k Hr') as (_ & Hf & Hkeep).
    specialize (Hkeep Hrem Hk).
    destruct (run_dedup_inv ctx acts' s s' Hinv Hr' k) as [H1' H2'].
    rewrite (member_1 _ _ Hk) in H1. rewrite (member_1 _ _ Hkeep) in H1'.
    split; [done|]. split; [done|]. split; [lia|].
    split; [done|].
    assert (not_called k s ≤ in_flight k s).
    { unfold not_called, in_flight.
      pose proof (uncalled_le_searches k (tasks s)). lia. }
    lia.
  - intros i e Ht <-. simpl. rewrite Ht. eexists. split; [done|]. simpl.
    split; [|split; [|done]].
    + rewrite elem_of_difference, elem_of_singleton. tauto.
    + pose proof (count_delete (searches (Cid e)) _ _ _ Ht) as Hc.
      unfold in_flight in *. simpl.
      assert (weight (searches (Cid e)) (mkTask e (AtWait 0)) = 1) as Hw.
      { unfold weight, searches. simpl. by rewrite bool_decide_eq_true_2. }
      unfold about_to_go, member in *. simpl.
      destruct (loop s); repeat case_bool_decide; lia.
  - intros Hk Hl c Hc.
    destruct (accepts_new ctx s k c Hinv Hk Hl Hc)
      as (s1 & s2 & _ & ? & ? & ? & ? & ? & _).
    by exists s1, s2.
  - intros i t Ht Hkt. split.
    + simpl. rewrite Ht. destruct t as [e [|wg|[|wg]]]; simpl; split;
        try done; by intros [? ?].
    + destruct (finish_task ctx s i t Ht)
        as (s' & Hr' & Ht' & Hks & Hl' & Hd' & Hrem).
      pose proof (run_dedup_inv ctx _ s s' Hinv Hr') as Hinv'.
      assert (k ∉ kset s') as Hk'.
      { rewrite Hks, Hkt, elem_of_difference, elem_of_singleton. tauto. }
      exists s'. split; [done|]. split; [done|]. split.
      { destruct (Hinv' k) as [-> _]. by apply member_0. }
      split.
      { rewrite Hrem, bool_decide_eq_true_2 by done. lia. }
      split; [done|]. split; [done|]. split; [done|].
      intros Hl c Hc.
      destruct (accepts_new ctx s' k c Hinv' Hk')
        as (s1 & s2 & s3 & Hs1 & _ & Hs2 & _ & _ & Hs3 & ? & ?);
        [congruence|by rewrite Hd'|].
      exists s3. split; [|done].
      unfold run. cbn [run_with]. rewrite Hs1. cbn [run_with].
      rewrite Hs2. cbn [run_with]. by rewrite Hs3.
  - pose proof (run_attempts ctx acts init s Hr) as Ha.
    change (connects init) with 0 in Ha. change (pending init) with 0 in Ha.
    lia.
Qed.

(** The scenario of the spec: "X" is requested, and requested twice more
    while its search is in flight; one call is made.  The search then
    ends and removes "X". *)
Lemma providerQueryManager_dedup_witness :
  let acts := [RecvReq (mkReq "X" 1); Go; RecvReq (mkReq "X" 2); Find 0;
               RecvReq (mkReq "X" 3)] in
  let s := {| done := ∅; kset := {["X"]}; loop := AtSelect;
              tasks := [mkTask (mkReq "X" 1) (AtRange 0)];
              trace := [FindProvidersAsync "X"] |} in
  run 0 init acts = Some s ∧
  (in_flight "X" s = member "X" s ∧ in_flight "X" s ≤ 1) ∧
  finds "X" s = 1 ∧
  ∃ s', run 0 s [Exhausted 0; Remove 0] = Some s' ∧
        ("X" ∉ kset s') ∧ in_flight "X" s' = 0.
Proof.
  intros acts s.
  assert (run 0 init acts = Some s) as H by (vm_compute; reflexivity).
  split; [exact H|].
  destruct (providerQueryManager_dedup 0 acts s "X" H)
    as (H1 & _ & _ & _ & _ & _ & H7 & _).
  split; [exact H1|]. split; [reflexivity|].
  destruct (H7 0 (mkTask (mkReq "X" 1) (AtRange 0)) eq_refl eq_refl)
    as (_ & s' & Hr & Hk & Hf & _).
  by exists s'.
Defined.

(** After the search for "X" has removed it from the set, a request for
    "X" starts a second search, with a second call. *)
Example second_search_after_removal :
  (λ s, (finds "X" s, removes "X" s, in_flight "X" s)) <$>
  run 0 init [RecvReq (mkReq "X" 1); Go; Find 0; Provider 0 "QmQ";
              RecvReq (mkReq "X" 2); Exhausted 0; ConnectReturns 0 true;
              Remove 0; RecvReq (mkReq "X" 3); Go; Find 0]
  = Some (2, 1, 1).
Proof. vm_compute. reflexivity. Qed.

(** C9: a request whose context is already done when the manager
    dequeues it is dropped by [continue]: the step succeeds (no error),
    and the state after it is the state before it, so the set, the list
    of search tasks and the log of calls are what they were and the
    manager is back at its [select]; a schedule with such a request in
    front ends where the schedule without it ends. *)
Theorem providerQueryManager_drops_canceled
    (ctx : ctx_id) (s : state) (e : blockRequest) :
  loop s = AtSelect → Ctx e ∈ done s →
  ∃ s', step ctx s (RecvReq e) = Some s' ∧ s' = s ∧
        kset s' = kset s ∧ tasks s' = tasks s ∧ trace s' = trace s ∧
        loop s' = AtSelect ∧
        ∀ acts, run ctx s (RecvReq e :: acts) = run ctx s acts.
Proof.
  intros Hl Hd.
  assert (step ctx s (RecvReq e) = Some s) as Hs.
  { simpl. rewrite Hl. by rewrite decide_True. }
  exists s. repeat split; try done.
  intros acts.
  change (run ctx s (RecvReq e :: acts))
    with (match step ctx s (RecvReq e) with
          | Some s' => run ctx s' acts
          | None => None
          end).
  by rewrite Hs.
Qed.

Lemma providerQueryManager_drops_canceled_witness :
  let s := {| done := {[7]}; kset := ∅; loop := AtSelect;
              tasks := []; trace := [] |} in
  let e := mkReq "X" 7 in
  loop s = AtSelect ∧ Ctx e ∈ done s ∧
  ∃ s', step 0 s (RecvReq e) = Some s' ∧ s' = s.
Proof.
  intros s e.
  assert (loop s = AtSelect) as H1 by reflexivity.
  assert (Ctx e ∈ done s) as H2
    by (subst s e; simpl; by apply elem_of_singleton_2).
  split; [exact H1|]. split; [exact H2|].
  destruct (providerQueryManager_drops_canceled 0 s e H1 H2)
    as (s' & Hs & Heq & _).
  by exists s'.
Defined.

End ProviderQueryManagerSpec.

(** ** taskWorker: the steps for one envelope, and cancellation *)
Module TaskWorkerSpec.
Import bsmsg TaskWorker.

(** The raw bytes of a list of blocks. *)
Definition total_bytes (l : list blocks.Block) : Z :=
  foldr (λ b acc, Z.of_nat (length (blocks.RawData b)) + acc)%Z 0%Z l.

(** A uint64 value. *)
Definition is_u64 (z : Z) : Prop := (0 ≤ z < 2 ^ 64)%Z.

Lemma u64_add_l (a b : Z) : u64 (u64 a + b) = u64 (a + b).
Proof. unfold u64. by rewrite Zplus_mod_idemp_l. Qed.

Lemma u64_add_r (a b : Z) : u64 (a + u64 b) = u64 (a + b).
Proof. unfold u64. by rewrite Zplus_mod_idemp_r. Qed.

Lemma u64_id (z : Z) : is_u64 z → u64 z = z.
Proof. intros H. unfold u64. by apply Z.mod_small. Qed.

Lemma u64_is_u64 (z : Z) : is_u64 (u64 z).
Proof. unfold is_u64, u64. apply Z.mod_pos_bound. lia. Qed.

Section Envelope.
Context {M : Type} `{!BitSwapMessage M}.

Lemma calls_snoc (l : list (event M)) (ev : event M) :
  calls (l ++ [ev]) = calls l ++ (if is_call ev then [ev] else []).
Proof.
  unfold calls. rewrite filter_app. f_equal.
  rewrite filter_cons, filter_nil. destruct (is_call ev); by case_decide.
Qed.

Lemma calls_app (l1 l2 : list (event M)) :
  calls (l1 ++ l2) = calls l1 ++ calls l2.
Proof. apply filter_app. Qed.

Lemma calls_Count (blks : list blocks.Block) :
  calls (Count <$> blks) = (Count <$> blks : list (event M)).
Proof.
  induction blks as [|b blks IH]; [done|].
  rewrite fmap_cons. unfold calls in *. rewrite filter_cons, IH.
  by rewrite decide_True.
Qed.

Lemma trace_emit (ev : event M) (w : world M) :
  trace (emit ev w) = trace w ++ [ev].
Proof. done. Qed.

(** The first loop builds the message and only writes log lines. *)
Lemma add_loop (blks : list blocks.Block) (m : M) (w : world M) :
  (foldl add_one (m, w) blks).1 = foldl AddBlock m blks ∧
  counts (foldl add_one (m, w) blks).2 = counts w ∧
  calls (trace (foldl add_one (m, w) blks).2) = calls (trace w).
Proof.
  revert m w. induction blks as [|b blks IH]; intros m w; [done|].
  simpl. unfold add_one at 2 4 6. simpl.
  destruct (IH (AddBlock m b) (emit (LogEvent "Bitswap.TaskWorker.Work") w))
    as (H1 & H2 & H3).
  rewrite H1, H2, H3. repeat split; try done.
  simpl. rewrite calls_snoc. simpl. by rewrite app_nil_r.
Qed.

(** The second loop counts every block once. *)
Lemma count_loop (blks : list blocks.Block) (w : world M) :
  trace (foldl count_block w blks) = trace w ++ (Count <$> blks) ∧
  u64 (blocksSent (counts (foldl count_block w blks)))
  = u64 (blocksSent (counts w) + Z.of_nat (length blks)) ∧
  u64 (dataSent (counts (foldl count_block w blks)))
  = u64 (dataSent (counts w) + total_bytes blks) ∧
  (is_u64 (blocksSent (counts w)) → is_u64 (dataSent (counts w)) →
   is_u64 (blocksSent (counts (foldl count_block w blks))) ∧
   is_u64 (dataSent (counts (foldl count_block w blks)))).
Proof.
  revert w. induction blks as [|b blks IH]; intros w.
  - simpl. rewrite app_nil_r, !Z.add_0_r. done.
  - simpl foldl. destruct (IH (count_block w b)) as (H1 & H2 & H3 & H4).
    rewrite H1, H2, H3. simpl. split; [by rewrite <- app_assoc|].
    split; [|split].
    + rewrite u64_add_l. f_equal. lia.
    + rewrite u64_add_l, <- Z.add_assoc, (Z.add_comm (u64 _)), Z.add_assoc.
      rewrite u64_add_r. f_equal. lia.
    + intros _ _. apply H4; simpl; apply u64_is_u64.
Qed.

Lemma filter_all {A : Type} (P : A → Prop) `{!∀ x, Decision (P x)}
    (l : list A) :
  Forall P l → filter P l = l.
Proof.
  induction 1 as [|x l Hx _ IH]; [done|].
  rewrite filter_cons, decide_True by done. by rewrite IH.
Qed.

(** Adding blocks of pairwise distinct Cids, none of them stored yet,
    stores them all and keeps what was stored. *)
Lemma AddBlock_all (blks acc : list blocks.Block) (m : M) :
  Blocks m ≡ₚ acc →
  NoDup (blocks.Cid <$> (acc ++ blks)) →
  Blocks (foldl AddBlock m blks) ≡ₚ acc ++ blks.
Proof.
  revert acc m. induction blks as [|b blks IH]; intros acc m Hm Hnd.
  - by rewrite app_nil_r.
  - simpl. rewrite (assoc_L (++) acc [b] blks : acc ++ b :: blks = _).
    apply IH.
    + rewrite Blocks_AddBlock, Hm. f_equiv.
      rewrite filter_all; [done|].
      apply Forall_forall. intros x Hx Heq.
      rewrite fmap_app, fmap_cons in Hnd.
      apply NoDup_app in Hnd as (_ & Hdis & _).
      apply (Hdis (blocks.Cid x)).
      * by apply list_elem_of_fmap_2.
      * rewrite Heq. apply elem_of_cons. by left.
    + by rewrite <- (assoc_L (++)).
Qed.

(** What lines 62-83 do to the world, whatever happens in [SendBlocks]. *)
Lemma process_spec (sent : bool) (envelope : Envelope M) (w : world M) :
  let blks := Blocks (Message envelope) in
  calls (trace (process sent envelope w))
  = calls (trace w)
    ++ [MessageSent (Peer envelope) (foldl AddBlock (New false) blks);
        SendBlocks envelope sent; Lock]
    ++ (Count <$> blks) ++ [Unlock] ∧
  (is_u64 (blocksSent (counts w)) → is_u64 (dataSent (counts w)) →
   blocksSent (counts (process sent envelope w))
   = u64 (blocksSent (counts w) + Z.of_nat (length blks)) ∧
   dataSent (counts (process sent envelope w))
   = u64 (dataSent (counts w) + total_bytes blks)).
Proof.
  intros blks. unfold process. fold blks.
  destruct (add_loop blks (New false) w) as (Hm & Hc & Ht).
  destruct (foldl add_one (New false, w) blks) as [outgoing w1].
  simpl in Hm, Hc, Ht. subst outgoing.
  set (w2 := emit Lock _).
  destruct (count_loop blks w2) as (Ht2 & Hb & Hd & Hu).
  assert (counts w2 = counts w) as Hc2 by (by rewrite <- Hc).
  split.
  - rewrite trace_emit, calls_snoc, Ht2, calls_app, calls_Count. subst w2.
    rewrite !trace_emit, !calls_snoc, Ht. simpl.
    by rewrite <- !app_assoc.
  - intros Hub Hud. simpl. rewrite Hc2 in *.
    destruct (Hu Hub Hud) as [Hub' Hud'].
    rewrite <- (u64_id _ Hub'), <- (u64_id _ Hud'). by rewrite Hb, Hd.
Qed.

(** C5: a worker that holds the channel of an envelope and receives the
    envelope from it makes, in this order and within that one step of
    its loop, exactly these calls: [MessageSent] once, with the message
    built from a new one by adding the envelope's blocks, which holds
    exactly the envelope's blocks; [SendBlocks] with the envelope; the
    lock of the counter mutex; one count per block; the unlock.  After
    it [blocksSent] has grown by the number of blocks and [dataSent] by
    their total raw size (both uint64, so modulo 2^64), and the worker
    is back at the outer wait. *)
Theorem taskWorker_envelope_steps
    (sent : bool) (envelope : Envelope M) (s : state) :
  pc s = AtEnvelope (Ready envelope) →
  NoDup (blocks.Cid <$> Blocks (Message envelope)) →
  is_u64 (blocksSent (counts (bs s))) → is_u64 (dataSent (counts (bs s))) →
  ∃ (s' : state) (outgoing : M),
    step s (RecvEnvelope sent) = Some s' ∧ pc s' = AtOutbox ∧
    outgoing = foldl AddBlock (New false) (Blocks (Message envelope)) ∧
    Blocks outgoing ≡ₚ Blocks (Message envelope) ∧
    calls (trace (bs s'))
    = calls (trace (bs s))
      ++ [MessageSent (Peer envelope) outgoing; SendBlocks envelope sent; Lock]
      ++ (Count <$> Blocks (Message envelope)) ++ [Unlock] ∧
    blocksSent (counts (bs s'))
    = u64 (blocksSent (counts (bs s))
           + Z.of_nat (length (Blocks (Message envelope)))) ∧
    dataSent (counts (bs s'))
    = u64 (dataSent (counts (bs s))
           + total_bytes (Blocks (Message envelope))).
Proof.
  intros Hpc Hnd Hub Hud.
  destruct (process_spec sent envelope (bs s)) as [Hcalls Hcounts].
  destruct (Hcounts Hub Hud) as [Hb Hd].
  eexists _, _. simpl. rewrite Hpc. split; [done|]. simpl.
  split; [done|]. split; [done|].
  split.
  { change (Blocks (Message envelope)) with ([] ++ Blocks (Message envelope))
      at 2.
    apply AddBlock_all; [by rewrite Blocks_New|done]. }
  split; [|done].
  rewrite calls_snoc. simpl. by rewrite app_nil_r.
Qed.

(** C10: the counters do not depend on what happened in [SendBlocks].
    From the same state, the step with a transmission that went through
    and the step with one that failed both succeed, both count every
    block of the envelope, and end with the same counters; in the failed
    case the recorded failure comes before the lock and the counts. *)
Theorem taskWorker_counts_attempts (envelope : Envelope M) (s : state) :
  pc s = AtEnvelope (Ready envelope) →
  is_u64 (blocksSent (counts (bs s))) → is_u64 (dataSent (counts (bs s))) →
  ∃ s_sent s_failed : state,
    step s (RecvEnvelope true) = Some s_sent ∧
    step s (RecvEnvelope false) = Some s_failed ∧
    counts (bs s_failed) = counts (bs s_sent) ∧
    pc s_failed = pc s_sent ∧
    blocksSent (counts (bs s_failed))
    = u64 (blocksSent (counts (bs s))
           + Z.of_nat (length (Blocks (Message envelope)))) ∧
    dataSent (counts (bs s_failed))
    = u64 (dataSent (counts (bs s))
           + total_bytes (Blocks (Message envelope))) ∧
    ∃ before, calls (trace (bs s_failed))
              = before ++ [SendBlocks envelope false; Lock]
                ++ (Count <$> Blocks (Message envelope)) ++ [Unlock].
Proof.
  intros Hpc Hub Hud.
  destruct (process_spec true envelope (bs s)) as [_ Hok].
  destruct (process_spec false envelope (bs s)) as [Hcalls Hko].
  destruct (Hok Hub Hud) as [Hb1 Hd1]. destruct (Hko Hub Hud) as [Hb2 Hd2].
  eexists _, _. simpl. rewrite Hpc. split; [done|]. split; [done|]. simpl.
  split.
  { destruct (counts (process false envelope (bs s))),
      (counts (process true envelope (bs s))). simpl in *. congruence. }
  split; [done|]. split; [done|]. split; [done|].
  exists (calls (trace (bs s))
          ++ [MessageSent (Peer envelope)
                (foldl AddBlock (New false) (Blocks (Message envelope)))]).
  rewrite calls_snoc, Hcalls. simpl. rewrite app_nil_r.
  by rewrite <- app_assoc.
Qed.

(** C8: with the context canceled the worker can return from the outer
    wait and from the inner wait, and when it is blocked there (nothing
    on offer at the outer wait, nothing in the channel at the inner one)
    returning is the only step it has; a closed inner channel sends it
    back to the outer wait, does not make it return, and counts
    nothing; without cancellation the worker never returns. *)
Theorem taskWorker_cancellation (s : state) :
  (canceled s = true → pc s = AtOutbox →
   (∃ s', step s CtxDone = Some s' ∧ pc s' = Returned) ∧
   (Outbox s = [] →
    ∀ a, of_worker a = true → is_Some (step s a) → a = CtxDone)) ∧
  (canceled s = true → ∀ ch, pc s = AtEnvelope ch →
   (∃ s', step s CtxDone = Some s' ∧ pc s' = Returned) ∧
   (ch = Pending →
    ∀ a, of_worker a = true → is_Some (step s a) → a = CtxDone)) ∧
  (pc s = AtEnvelope Withdrawn →
   ∀ sent, ∃ s', step s (RecvEnvelope sent) = Some s' ∧
                 pc s' = AtOutbox ∧ counts (bs s') = counts (bs s) ∧
                 calls (trace (bs s')) = calls (trace (bs s))) ∧
  (canceled s = false → step s CtxDone = None) ∧
  (pc s = Returned → ∀ a, of_worker a = true → step s a = None).
Proof.
  split; [|split; [|split; [|split]]].
  - intros Hc Hpc. split.
    + simpl. rewrite Hpc, Hc. by eexists.
    + intros Ho a Hw [s' Hs]. destruct a; try done; simpl in Hs.
      * by rewrite Hpc, Ho in Hs.
      * by rewrite Hpc in Hs.
  - intros Hc ch Hpc. split.
    + simpl. rewrite Hpc, Hc. by eexists.
    + intros -> a Hw [s' Hs]. destruct a; try done; simpl in Hs.
      * by rewrite Hpc in Hs.
      * by rewrite Hpc in Hs.
  - intros Hpc sent. simpl. rewrite Hpc. eexists. split; [done|]. simpl.
    split; [done|]. split; [done|].
    rewrite calls_snoc. simpl. by rewrite app_nil_r.
  - intros Hc. simpl. rewrite Hc. by destruct (pc s).
  - intros Hpc a Hw. destruct a; try done; simpl; by rewrite Hpc.
Qed.

End Envelope.

Example u64_wraps : u64 (2 ^ 64 - 1 + 2) = 1%Z.
Proof. reflexivity. Qed.

(** An envelope of two blocks, three bytes and one byte, for a worker
    whose block counter is at the largest uint64. *)
Definition two_blocks : Envelope (list blocks.Block) :=
  mkEnvelope "QmPeer"
    [blocks.mkBlock "A" [Byte.x01; Byte.x02; Byte.x03];
     blocks.mkBlock "B" [Byte.x04]].

Definition holding_two_blocks : state :=
  {| pc := AtEnvelope (Ready two_blocks); canceled := false; Outbox := [];
     bs := {| counts := mkCounters (2 ^ 64 - 1) 10; trace := [] |} |}.

Lemma two_blocks_ok :
  pc holding_two_blocks = AtEnvelope (Ready two_blocks) ∧
  NoDup (blocks.Cid <$> Blocks (Message two_blocks)) ∧
  is_u64 (blocksSent (counts (bs holding_two_blocks))) ∧
  is_u64 (dataSent (counts (bs holding_two_blocks))).
Proof.
  split; [done|]. split.
  - apply (bool_decide_unpack _). vm_compute. exact I.
  - unfold is_u64. simpl. lia.
Qed.

Lemma taskWorker_envelope_steps_witness :
  (pc holding_two_blocks = AtEnvelope (Ready two_blocks) ∧
   NoDup (blocks.Cid <$> Blocks (Message two_blocks)) ∧
   is_u64 (blocksSent (counts (bs holding_two_blocks))) ∧
   is_u64 (dataSent (counts (bs holding_two_blocks)))) ∧
  ∃ s', step holding_two_blocks (RecvEnvelope true) = Some s' ∧
        blocksSent (counts (bs s')) = 1%Z ∧
        dataSent (counts (bs s')) = 14%Z.
Proof.
  split; [exact two_blocks_ok|].
  destruct two_blocks_ok as (H1 & H2 & H3 & H4).
  destruct (taskWorker_envelope_steps true two_blocks holding_two_blocks
              H1 H2 H3 H4) as (s' & out & Hs & _ & _ & _ & _ & Hb & Hd).
  exists s'. split; [exact Hs|]. by rewrite Hb, Hd.
Defined.

Lemma taskWorker_counts_attempts_witness :
  (pc holding_two_blocks = AtEnvelope (Ready two_blocks) ∧
   is_u64 (blocksSent (counts (bs holding_two_blocks))) ∧
   is_u64 (dataSent (counts (bs holding_two_blocks)))) ∧
  ∃ s_failed, step holding_two_blocks (RecvEnvelope false) = Some s_failed ∧
              blocksSent (counts (bs s_failed)) = 1%Z ∧
              dataSent (counts (bs s_failed)) = 14%Z.
Proof.
  destruct two_blocks_ok as (H1 & _ & H3 & H4).
  split; [by repeat split|].
  destruct (taskWorker_counts_attempts two_blocks holding_two_blocks
              H1 H3 H4) as (_ & s' & _ & Hs & _ & _ & Hb & Hd & _).
  exists s'. split; [exact Hs|]. by rewrite Hb, Hd.
Defined.

End TaskWorkerSpec.

(** ** rebroadcastWorker: what a tick submits, and shutdown *)
Module RebroadcastWorkerSpec.
Import RebroadcastWorker.

(** The request that the worker is left sending after the rebroadcast
    timer fired with draw [i], if any. *)
Definition selects (ctx : ctx_id) (capacity : nat) (s : state) (i : nat)
    : option blockRequest :=
  match step ctx capacity s (Broadcast i) with
  | Some s' => match pc s' with AtSend e => Some e | _ => None end
  | None => None
  end.

Definition request_for (ctx : ctx_id) (en : wantlist.Entry) : blockRequest :=
  mkReq (wantlist.Cid en) ctx.

(** What the send on [bs.findKeys] has to wait for in state [s]: nothing
    when the buffer has room or the channel is unbuffered, else one
    receive of the manager. *)
Definition make_room (capacity : nat) (s : state) : list action :=
  if decide (length (findKeys s) < capacity) then []
  else if decide (capacity = 0) then []
  else [ManagerRecv].

Lemma draws_of (i a n : nat) :
  length (filter (λ d, d = i) (seq a n))
  = if bool_decide (a ≤ i ∧ i < a + n) then 1 else 0.
Proof.
  revert a. induction n as [|n IH]; intros a.
  - simpl. case_bool_decide; [lia|done].
  - cbn [seq]. rewrite filter_cons.
    case_decide; cbn [length]; rewrite (IH (S a));
      repeat case_bool_decide; lia.
Qed.

Lemma omap_lookup_seq {A B : Type} (g : A → B) (l pre : list A) :
  omap (λ i, g <$> (pre ++ l) !! i) (seq (length pre) (length l)) = g <$> l.
Proof.
  revert pre. induction l as [|x l IH]; intros pre; [done|].
  csimpl. rewrite list_lookup_middle by done. csimpl. f_equal.
  specialize (IH (pre ++ [x])). rewrite length_app in IH. simpl in IH.
  rewrite Nat.add_1_r, <- (assoc_L (++)) in IH. exact IH.
Qed.

Lemma omap_ext_all {A B : Type} (f g : A → option B) (l : list A) :
  (∀ x, f x = g x) → omap f l = omap g l.
Proof.
  intros Hfg. induction l as [|x l IH]; [done|].
  csimpl. by rewrite Hfg, IH.
Qed.

Lemma selects_lookup (ctx : ctx_id) (capacity : nat) (s : state) (i : nat) :
  pc s = AtSelect → wants s ≠ [] →
  selects ctx capacity s i = request_for ctx <$> wants s !! i.
Proof.
  intros Hpc Hw. unfold selects. simpl. rewrite Hpc.
  destruct (wants s) as [|en0 rest] eqn:E; [done|].
  by destruct ((en0 :: rest) !! i).
Qed.

(** C7: at the select of the loop,
    (1) with an empty want-list the rebroadcast tick changes nothing,
        whatever the random source would give;
    (2) with K > 0 entries, the draw i < K leaves the worker sending one
        request, for the Cid of entry i and with the worker's context;
        until that send is through no other tick is taken, and when it
        goes through exactly that one request is added to what was
        submitted.  The send goes through at once exactly when the
        buffer of [bs.findKeys] has room or, on an unbuffered channel,
        the manager is there to receive; and whenever there is room or
        a running manager, the send does go through, after one receive
        of the manager if the buffer was full: the worker is back at
        its select and the request of entry i is the newest of the
        requests submitted, which are otherwise what they were;
    (3) the K equally likely draws of [rand.Intn(K)] select the K
        entries, each draw its own entry, in the order of the list, so
        every entry is selected by exactly one of K equally likely draws;
    (4) no draw outside [0,K) is taken;
    (5) the metrics tick is taken, leaves the worker at its select and
        submits nothing;
    (6) [rand.Intn(K)] has K results and every index below K is exactly
        one of them. *)
Theorem rebroadcastWorker_selection
    (ctx : ctx_id) (capacity : nat) (s : state) :
  pc s = AtSelect →
  (wants s = [] → ∀ i, step ctx capacity s (Broadcast i) = Some s) ∧
  (∀ i en, wants s !! i = Some en →
     ∃ s', step ctx capacity s (Broadcast i) = Some s' ∧
           pc s' = AtSend (request_for ctx en) ∧
           submitted s' = submitted s ∧
           (∀ j, step ctx capacity s' (Broadcast j) = None) ∧
           step ctx capacity s' Tick = None ∧
           (∀ s'', step ctx capacity s' Send = Some s'' →
                   pc s'' = AtSelect ∧
                   submitted s'' ≡ₚ request_for ctx en :: submitted s) ∧
           (is_Some (step ctx capacity s' Send) ↔
            length (findKeys s) < capacity ∨
            (capacity = 0 ∧ managerUp s = true)) ∧
           (length (findKeys s) ≤ capacity →
            length (findKeys s) < capacity ∨ managerUp s = true →
            ∃ s'', run ctx capacity s' (make_room capacity s ++ [Send])
                   = Some s'' ∧
                   pc s'' = AtSelect ∧ wants s'' = wants s ∧
                   submitted s'' = submitted s ++ [request_for ctx en])) ∧
  omap (selects ctx capacity s) (rand.Intn (length (wants s)))
  = request_for ctx <$> wants s ∧
  (wants s ≠ [] →
   ∀ i, length (wants s) ≤ i → step ctx capacity s (Broadcast i) = None) ∧
  (∃ s', step ctx capacity s Tick = Some s' ∧ pc s' = AtSelect ∧
         submitted s' = submitted s ∧ wants s' = wants s) ∧
  (length (rand.Intn (length (wants s))) = length (wants s) ∧
   ∀ i, i < length (wants s) →
        length (filter (λ d, d = i) (rand.Intn (length (wants s)))) = 1).
Proof.
  intros Hpc. split; [|split; [|split; [|split; [|split]]]].
  - intros Hw i. simpl. by rewrite Hpc, Hw.
  - intros i en Hi. simpl. rewrite Hpc.
    destruct (wants s) as [|en0 rest] eqn:E; [done|]. rewrite Hi.
    eexists. split; [done|]. simpl.
    split; [done|]. split; [done|]. split; [done|]. split; [done|].
    split; [|split].
    + intros s'' Hs. unfold submitted. repeat case_decide; try done.
      * simplify_eq. simpl. split; [done|].
        by rewrite (assoc_L (++)), <- Permutation_cons_append.
      * destruct (managerUp s); [|done]. simplify_eq. simpl. split; [done|].
        rewrite <- (assoc_L (++)), (Permutation_app_comm [_]).
        by rewrite (assoc_L (++)), <- Permutation_cons_append.
    + repeat case_decide.
      * split; [intros _; by left|by eexists].
      * destruct (managerUp s).
        -- split; [intros _; by right|by eexists].
        -- split; [by intros [? ?]|]. intros [?|[_ ?]]; [lia|done].
      * split; [by intros [? ?]|]. intros [?|[? _]]; [lia|done].
    + intros Hle Hcan. unfold make_room, run, submitted.
      repeat case_decide.
      * (* room in the buffer *)
        simpl. rewrite decide_True by done. eexists. split; [done|]. simpl.
        rewrite E. by rewrite (assoc_L (++)).
      * (* unbuffered, the manager receives *)
        destruct Hcan as [?|Hup]; [lia|].
        assert (findKeys s = []) as Hnil.
        { apply length_zero_iff_nil. lia. }
        simpl. rewrite decide_False by done. rewrite decide_True by done.
        rewrite Hup. eexists. split; [done|]. simpl.
        rewrite E, Hnil. by rewrite !app_nil_r.
      * (* the buffer is full: the manager takes the oldest request *)
        destruct Hcan as [?|Hup]; [lia|].
        destruct (findKeys s) as [|e0 rest0] eqn:Ef; [simpl in *; lia|].
        simpl in Hle. simpl. rewrite Hup, Ef. simpl.
        rewrite decide_True by (simpl in *; lia).
        eexists. split; [done|]. simpl. rewrite E.
        by rewrite <- !(assoc_L (++)).
  - destruct (wants s) as [|en0 rest] eqn:E; [done|]. rewrite <- E.
    rewrite <- (omap_lookup_seq (request_for ctx) (wants s) []).
    apply omap_ext_all. intros i. apply selects_lookup; [done|].
    by rewrite E.
  - intros Hw i Hi. simpl. rewrite Hpc.
    destruct (wants s) as [|en0 rest] eqn:E; [done|].
    by rewrite (lookup_ge_None_2 _ _ Hi).
  - simpl. rewrite Hpc. by eexists.
  - unfold rand.Intn. split; [by rewrite length_seq|].
    intros i Hi. rewrite draws_of. rewrite bool_decide_eq_true_2; [done|lia].
Qed.

Lemma rebroadcastWorker_selection_witness :
  let s := {| pc := AtSelect; parentDone := false; tickStopped := false;
              broadcastStopped := false;
              wants := [wantlist.mkEntry "X" 1; wantlist.mkEntry "Y" 1;
                        wantlist.mkEntry "Z" 1];
              findKeys := []; taken := []; managerUp := true;
              debugLines := 0 |} in
  pc s = AtSelect ∧
  omap (selects 5 32 s) (rand.Intn 3)
  = [mkReq "X" 5; mkReq "Y" 5; mkReq "Z" 5] ∧
  ∃ s' s'', step 5 32 s (Broadcast 1) = Some s' ∧
            run 5 32 s' [Send] = Some s'' ∧
            submitted s'' = [mkReq "Y" 5].
Proof.
  intros s. split; [reflexivity|].
  destruct (rebroadcastWorker_selection 5 32 s eq_refl) as (_ & H2 & H3 & _).
  split; [exact H3|].
  destruct (H2 1 (wantlist.mkEntry "Y" 1) eq_refl)
    as (s' & Hs & _ & _ & _ & _ & _ & _ & Hsend).
  destruct Hsend as (s'' & Hr & _ & _ & Hsub).
  { simpl. lia. }
  { left. simpl. lia. }
  by exists s', s''.
Defined.

(** The requests that fill the buffer of [bs.findKeys] while the manager
    does not take any: one tick and one send for each free place. *)
Definition fill (n : nat) : list action :=
  concat (replicate n [Broadcast 0; Send]).

(** The worker is at its send with the context canceled, the buffer full
    and nobody left to receive. *)
Definition blocked (capacity : nat) (e : blockRequest) (s : state) : Prop :=
  pc s = AtSend e ∧ managerUp s = false ∧
  length (findKeys s) = capacity ∧
  tickStopped s = false ∧ broadcastStopped s = false.

Lemma step_blocked (ctx : ctx_id) (capacity : nat) (e : blockRequest)
    (s s' : state) (a : action) :
  blocked capacity e s → step ctx capacity s a = Some s' →
  of_worker a = false ∧ blocked capacity e s'.
Proof.
  unfold blocked. intros (Hpc & Hm & Hl & Ht & Hb) Hs.
  destruct a; simpl in Hs.
  - by simplify_eq.
  - by simplify_eq.
  - by rewrite Hm in Hs.
  - by rewrite Hm in Hs.
  - by rewrite Hpc in Hs.
  - by rewrite Hpc in Hs.
  - rewrite Hpc, Hm in Hs. repeat case_decide; try done. lia.
  - by rewrite Hpc in Hs.
Qed.

Lemma run_blocked (ctx : ctx_id) (capacity : nat) (e : blockRequest)
    (acts : list action) (s s' : state) :
  blocked capacity e s → run ctx capacity s acts = Some s' →
  Forall (λ a, of_worker a = false) acts ∧ blocked capacity e s'.
Proof.
  revert s. induction acts as [|a acts IH]; intros s Hb Hr.
  - injection Hr as <-. by split.
  - unfold run in Hr. simpl in Hr.
    destruct (step ctx capacity s a) as [s1|] eqn:Hs; [|done].
    destruct (step_blocked _ _ _ _ _ _ Hb Hs) as [Ha Hb1].
    destruct (IH s1 Hb1 Hr) as [Hf Hb']. split; [by constructor|done].
Qed.

(** Filling the buffer: n ticks, each followed by its send, with room for
    all of them. *)
Lemma run_fill (ctx : ctx_id) (capacity n : nat) (en : wantlist.Entry)
    (s : state) :
  pc s = AtSelect → wants s = [en] →
  length (findKeys s) + n ≤ capacity →
  ∃ s', run ctx capacity s (fill n) = Some s' ∧
        pc s' = AtSelect ∧ wants s' = [en] ∧
        findKeys s' = findKeys s ++ replicate n (request_for ctx en) ∧
        parentDone s' = parentDone s ∧ managerUp s' = managerUp s ∧
        tickStopped s' = tickStopped s ∧
        broadcastStopped s' = broadcastStopped s.
Proof.
  revert s. induction n as [|n IH]; intros s Hpc Hw Hl.
  - exists s. simpl. by rewrite app_nil_r.
  - set (s1 := {| pc := AtSelect; parentDone := parentDone s;
                  tickStopped := tickStopped s;
                  broadcastStopped := broadcastStopped s; wants := wants s;
                  findKeys := findKeys s ++ [request_for ctx en];
                  taken := taken s; managerUp := managerUp s;
                  debugLines := debugLines s |}).
    destruct (IH s1) as (s' & Hr & ? & ? & Hf & ? & ? & ? & ?);
      [done|done| |].
    { simpl. rewrite length_app. simpl. lia. }
    exists s'. split.
    + unfold fill, run in *. simpl. rewrite Hpc, Hw. simpl.
      rewrite decide_True by lia. exact Hr.
    + repeat split; try done. rewrite Hf. simpl.
      by rewrite <- (assoc_L (++)).
Qed.

(** C6, on the code: for every capacity of [bs.findKeys], the worker
    fills the buffer while the manager takes nothing, the rebroadcast
    timer fires once more and the worker reaches its send; then the
    parent context is canceled and the manager returns.  The worker is
    now at the send with the parent context done, and it stays there in
    every continuation: no step of the worker is possible, it has not
    returned, and neither timer is stopped.  Had the cancellation found
    it at the select, it would have returned with both timers stopped. *)
Theorem rebroadcastWorker_send_ignores_cancel (ctx : ctx_id) (capacity : nat) :
  let e := mkReq "X" ctx in
  let acts := SetWants [wantlist.mkEntry "X" 1] :: fill capacity
              ++ [Broadcast 0; CancelParent; ManagerReturns] in
  ∃ s, run ctx capacity init acts = Some s ∧
       parentDone s = true ∧ pc s = AtSend e ∧
       (∀ a, of_worker a = true → step ctx capacity s a = None) ∧
       (∀ acts' s', run ctx capacity s acts' = Some s' →
          Forall (λ a, of_worker a = false) acts' ∧
          pc s' = AtSend e ∧
          tickStopped s' = false ∧ broadcastStopped s' = false) ∧
       (∀ s0, pc s0 = AtSelect → parentDone s0 = true →
          ∃ s1, step ctx capacity s0 ParentDone = Some s1 ∧
                pc s1 = Returned ∧
                tickStopped s1 = true ∧ broadcastStopped s1 = true).
Proof.
  intros e acts.
  set (s0 := {| pc := AtSelect; parentDone := false; tickStopped := false;
                broadcastStopped := false;
                wants := [wantlist.mkEntry "X" 1];
                findKeys := []; taken := []; managerUp := true;
                debugLines := 0 |}).
  destruct (run_fill ctx capacity capacity (wantlist.mkEntry "X" 1) s0)
    as (s1 & Hr1 & Hpc & Hw & Hf & Hp & Hm & Ht & Hb);
    [done|done|simpl; lia|].
  simpl in Hf, Hp, Hm, Ht, Hb.
  set (s := {| pc := AtSend e; parentDone := true;
               tickStopped := tickStopped s1;
               broadcastStopped := broadcastStopped s1; wants := wants s1;
               findKeys := findKeys s1; taken := taken s1;
               managerUp := false; debugLines := debugLines s1 |}).
  assert (run ctx capacity init acts = Some s) as Hrun.
  { subst acts. unfold run. simpl.
    change (run ctx capacity s0
              (fill capacity ++ [Broadcast 0; CancelParent; ManagerReturns])
            = Some s).
    unfold run. rewrite (run_with_app _ _ _ _ _ Hr1). simpl.
    rewrite Hpc, Hw. simpl. by rewrite Hm. }
  assert (blocked capacity e s) as Hbl.
  { unfold blocked. simpl. rewrite Hf, Ht, Hb.
    by rewrite length_replicate. }
  exists s. split; [done|]. split; [done|]. split; [done|].
  split; [|split].
  - intros a Ha. destruct (step ctx capacity s a) as [s'|] eqn:Hs; [|done].
    destruct (step_blocked _ _ _ _ _ _ Hbl Hs) as [Ha' _]. congruence.
  - intros acts' s' Hr'.
    destruct (run_blocked _ _ _ _ _ _ Hbl Hr') as [Hf' (? & _ & _ & ? & ?)].
    done.
  - intros s2 Hpc2 Hd2. simpl. rewrite Hpc2, Hd2. by eexists.
Qed.

(** The same run with a buffer of 32 requests. *)
Example blocked_with_32 :
  (λ s, (pc s, parentDone s, length (findKeys s), tickStopped s)) <$>
  run 5 32 init (SetWants [wantlist.mkEntry "X" 1] :: fill 32
                 ++ [Broadcast 0; CancelParent; ManagerReturns])
  = Some (AtSend (mkReq "X" 5), true, 32, false).
Proof. vm_compute. reflexivity. Qed.

End RebroadcastWorkerSpec.

(** ** startWorkers: which goroutines are started *)
Module StartWorkersSpec.
Import StartWorkers.

(** The loop at [i] with enough passes left starts the workers
    [i], [i+1], ... up to [TaskWorkerCount - 1] and ends because its
    condition fails. *)
Lemma taskWorkers_seqZ (C : Z) (n : nat) (i : Z) :
  Z.to_nat (C - i) ≤ n →
  taskWorkers C n i = taskWorker <$> seqZ i (C - i).
Proof.
  revert i. induction n as [|n IH]; intros i Hn.
  - rewrite seqZ_nil by lia. done.
  - simpl. case_decide as Hlt.
    + rewrite IH by lia. rewrite (seqZ_cons i) by lia. simpl.
      do 3 f_equal; lia.
    + rewrite seqZ_nil by lia. done.
Qed.

Lemma no_taskWorker_filter (ids : list Z) :
  filter (λ g, is_taskWorker g = true) (taskWorker <$> ids)
  = taskWorker <$> ids.
Proof.
  induction ids as [|i ids IH]; [done|].
  rewrite fmap_cons, filter_cons, decide_True by done. by rewrite IH.
Qed.

(** X1: [startWorkers] starts, in this order, the provider query
    manager, the task workers with the ids 0, 1, ..., TaskWorkerCount-1
    (none when TaskWorkerCount is zero or negative), the rebroadcast
    worker, the provide collector and the provide worker: four
    goroutines and one per task worker, no two of them the same, every
    task worker with its own id.  The loop over the ids ends by its
    condition: more passes would start nothing more. *)
Theorem startWorkers_goroutines (TaskWorkerCount : Z) :
  startWorkers TaskWorkerCount
  = [providerQueryManager]
    ++ (taskWorker <$> seqZ 0 TaskWorkerCount)
    ++ [rebroadcastWorker; provideCollector; provideWorker] ∧
  length (startWorkers TaskWorkerCount) = 4 + Z.to_nat TaskWorkerCount ∧
  length (filter (λ g, is_taskWorker g = true) (startWorkers TaskWorkerCount))
  = Z.to_nat TaskWorkerCount ∧
  NoDup (startWorkers TaskWorkerCount) ∧
  (∀ n, Z.to_nat TaskWorkerCount ≤ n →
        taskWorkers TaskWorkerCount n 0
        = taskWorkers TaskWorkerCount (Z.to_nat TaskWorkerCount) 0).
Proof.
  assert (∀ n, Z.to_nat TaskWorkerCount ≤ n →
            taskWorkers TaskWorkerCount n 0
            = taskWorker <$> seqZ 0 TaskWorkerCount) as Hloop.
  { intros n Hn. rewrite taskWorkers_seqZ; rewrite Z.sub_0_r; done. }
  assert (startWorkers TaskWorkerCount
          = [providerQueryManager]
            ++ (taskWorker <$> seqZ 0 TaskWorkerCount)
            ++ [rebroadcastWorker; provideCollector; provideWorker]) as Heq.
  { unfold startWorkers. by rewrite Hloop. }
  split; [done|]. rewrite Heq. split; [|split; [|split]].
  - rewrite !length_app, length_fmap, length_seqZ. simpl. lia.
  - rewrite !filter_app, no_taskWorker_filter. simpl.
    rewrite !length_app, length_fmap, length_seqZ. simpl. lia.
  - apply NoDup_app. split; [apply NoDup_singleton|]. split.
    + intros g ->%list_elem_of_singleton Hin.
      apply elem_of_app in Hin as [Hin|Hin].
      * by apply list_elem_of_fmap in Hin as (j & ? & _).
      * repeat (apply elem_of_cons in Hin as [?|Hin]; [done|]).
        by apply elem_of_nil in Hin.
    + apply NoDup_app. split; [|split].
      * apply NoDup_fmap_2; [|apply NoDup_seqZ].
        intros j1 j2 Hj. by simplify_eq.
      * intros g Hin Hin2. apply list_elem_of_fmap in Hin as (j & -> & _).
        repeat (apply elem_of_cons in Hin2 as [?|Hin2]; [done|]).
        by apply elem_of_nil in Hin2.
      * repeat (apply NoDup_cons; split;
                [intros Hin;
                 repeat (apply elem_of_cons in Hin as [?|Hin]; [done|]);
                 by apply elem_of_nil in Hin|]).
        apply NoDup_nil_2.
  - intros n Hn. by rewrite !Hloop.
Qed.

End StartWorkersSpec.

(** ** files stat: which format is used *)
Module FilesStatSpec.
Import FilesStat.

(** [moreThanOne] holds exactly when at least two of its arguments do. *)
Lemma moreThanOne_count (a b c : bool) :
  moreThanOne a b c = true ↔ 2 ≤ Nat.b2n a + Nat.b2n b + Nat.b2n c.
Proof. destruct a, b, c; simpl; split; (done || lia). Qed.

(** X2: [statGetFormatOptions] fails with [errFormat] exactly when at
    least two of these hold: the hash option is true, the size option is
    true, the format option is not the default format.  Otherwise it
    gives "<hash>" for the hash option, "<cumulsize>" for the size
    option, and else the format option as it is.  A format option that
    is missing (or not a string) reads as the empty string, which is not
    the default: together with hash or size it is a conflict, and alone
    it makes the format empty. *)
Theorem statGetFormatOptions_spec (Options : gmap string OptionValue) :
  let hash := as_bool (Options !! filesHashOptionName) in
  let size := as_bool (Options !! filesSizeOptionName) in
  let format := as_string (Options !! filesFormatOptionName) in
  let custom := negb (bool_decide (format = defaultStatFormat)) in
  (statGetFormatOptions Options = Err errFormat
   ↔ 2 ≤ Nat.b2n hash + Nat.b2n size + Nat.b2n custom) ∧
  (Nat.b2n hash + Nat.b2n size + Nat.b2n custom ≤ 1 →
   statGetFormatOptions Options
   = Ok (if hash then "<hash>" else if size then "<cumulsize>" else format)) ∧
  (Options !! filesFormatOptionName = None →
   (hash = true ∨ size = true → statGetFormatOptions Options = Err errFormat) ∧
   (hash = false → size = false → statGetFormatOptions Options = Ok "")).
Proof.
  intros hash size format custom.
  unfold statGetFormatOptions. fold hash size format. fold custom.
  split; [|split].
  - destruct (moreThanOne hash size custom) eqn:E.
    + split; [intros _; by apply moreThanOne_count|done].
    + split; [by destruct hash, size|].
      intros H. apply moreThanOne_count in H. congruence.
  - intros Hle. destruct (moreThanOne hash size custom) eqn:E.
    + apply moreThanOne_count in E. lia.
    + by destruct hash, size.
  - intros Hnone.
    assert (custom = true) as Hc.
    { subst custom format. by rewrite Hnone. }
    assert (format = "") as Hf by (subst format; by rewrite Hnone).
    rewrite Hc. clear Hc. clearbody hash size format. split.
    + intros [-> | ->]; [by destruct size|by destruct hash].
    + intros -> ->. simpl. by rewrite Hf.
Qed.

End FilesStatSpec.

(** ** ArrComp: equality of byte slices *)
Module TestuSpec.
Import Testu.

(** The loop from index [length pre] on, over slices of equal length. *)
Lemma compare_from_spec (a b' pre : list Byte.byte) :
  length a = length b' →
  (compare_from (length pre) a (pre ++ b') = Same ↔ a = b') ∧
  compare_from (length pre) a (pre ++ b') ≠ IndexOutOfRange ∧
  (∀ la lb, compare_from (length pre) a (pre ++ b') ≠ DifferInLength la lb) ∧
  (∀ i, compare_from (length pre) a (pre ++ b') = DifferAtIndex i ↔
        ∃ k, i = length pre + k ∧ take k a = take k b' ∧
             k < length a ∧ a !! k ≠ b' !! k).
Proof.
  revert b' pre. induction a as [|v a IH]; intros [|w b'] pre Hlen;
    try done.
  - simpl. repeat split; try done.
    intros (k & _ & _ & Hk & _). simpl in Hk. lia.
  - simpl. rewrite list_lookup_middle by done.
    destruct (decide (v = w)) as [->|Hne].
    + specialize (IH b' (pre ++ [w])).
      rewrite length_app, <- (assoc_L (++)) in IH. simpl in IH.
      rewrite Nat.add_1_r in IH.
      destruct IH as (H1 & H2 & H3 & H4); [by simplify_eq/=|].
      split; [|split; [done|split; [done|]]].
      * rewrite H1. split; [by intros ->|by intros [= ->]].
      * intros i. rewrite H4. split.
        -- intros (k & -> & Ht & Hk & Hd). exists (S k). simpl.
           split; [lia|]. split; [by rewrite Ht|]. split; [lia|done].
        -- intros ([|k] & -> & Ht & Hk & Hd); simpl in *; [done|].
           exists k. split; [lia|]. split; [by simplify_eq|].
           split; [lia|done].
    + split; [|split; [done|split; [done|]]].
      * split; [done|]. by intros [= ? _].
      * intros i. split.
        -- intros [= <-]. exists 0. simpl.
           split; [lia|]. split; [done|]. split; [lia|]. by intros [= ?].
        -- intros ([|k] & -> & Ht & Hk & Hd); [f_equal; lia|].
           simpl in Ht. by simplify_eq.
Qed.

(** X3: [ArrComp a b] returns nil exactly when the two slices are
    equal; it reports a difference in length exactly when the lengths
    differ, with the two lengths; it reports index [i] exactly when the
    lengths agree and [i] is the first index at which the slices differ;
    and the indexing [b[i]] of its loop is never out of range. *)
Theorem ArrComp_spec (a b : list Byte.byte) :
  (ArrComp a b = Same ↔ a = b) ∧
  ArrComp a b ≠ IndexOutOfRange ∧
  (∀ la lb, ArrComp a b = DifferInLength la lb ↔
            la = length a ∧ lb = length b ∧ la ≠ lb) ∧
  (∀ i, ArrComp a b = DifferAtIndex i ↔
        length a = length b ∧ take i a = take i b ∧
        i < length a ∧ a !! i ≠ b !! i).
Proof.
  unfold ArrComp. destruct (decide (length a = length b)) as [Hlen|Hlen].
  - destruct (compare_from_spec a b [] Hlen) as (H1 & H2 & H3 & H4).
    simpl in *. split; [done|]. split; [done|]. split.
    + intros la lb. split; [by intros ?%H3|]. intros (-> & -> & ?). done.
    + intros i. rewrite H4. split.
      * by intros (k & -> & ?).
      * intros (_ & ?). by exists i.
  - split; [|split; [done|split]].
    + split; [done|]. by intros ->.
    + intros la lb. split; [by intros [= <- <-]|]. by intros (-> & -> & _).
    + intros i. split; [done|]. by intros (? & _).
Qed.

End TestuSpec.

(** ** provideKeys: announcing a list of keys *)
Module DhtProvideSpec.
Import DhtProvide.

Section Routing.
Context {error : Type} (Provide : list cid.Cid → cid.Cid → option error).

(** Every key of [cids] is announced when tried after [calls] and the
    keys before it. *)
Definition all_announced (calls cids : list cid.Cid) : Prop :=
  ∀ before c after,
    cids = before ++ c :: after → Provide (calls ++ before) c = None.

Lemma all_announced_cons (calls : list cid.Cid) (c : cid.Cid)
    (cids : list cid.Cid) :
  all_announced calls (c :: cids)
  ↔ Provide calls c = None ∧ all_announced (calls ++ [c]) cids.
Proof.
  unfold all_announced. split.
  - intros H. split.
    + specialize (H [] c cids eq_refl). by rewrite app_nil_r in H.
    + intros before c' after ->. rewrite <- (assoc_L (++)).
      by apply (H (c :: before) c' after).
  - intros [Hc H] [|b before] c' after Heq; simplify_eq/=.
    + by rewrite app_nil_r.
    + specialize (H before c' after eq_refl).
      by rewrite <- (assoc_L (++)) in H.
Qed.

Lemma provideKeys_from (cids calls : list cid.Cid) :
  ((provideKeys Provide cids calls).2 = None ↔ all_announced calls cids) ∧
  ((provideKeys Provide cids calls).2 = None →
   (provideKeys Provide cids calls).1 = calls ++ cids) ∧
  (∀ err, (provideKeys Provide cids calls).2 = Some err →
     ∃ before c after,
       cids = before ++ c :: after ∧
       all_announced calls before ∧
       Provide (calls ++ before) c = Some err ∧
       (provideKeys Provide cids calls).1 = calls ++ before ++ [c]).
Proof.
  revert calls. induction cids as [|c cids IH]; intros calls; simpl.
  - split; [|split].
    + split; [|done]. intros _ [|? ?] ? ? ?; done.
    + by rewrite app_nil_r.
    + done.
  - rewrite all_announced_cons.
    destruct (Provide calls c) as [e|] eqn:Hc; simpl.
    + split; [|split; [done|]].
      * split; [done|]. by intros [? _].
      * intros err [= <-]. exists [], c, cids. rewrite app_nil_r.
        repeat split; try done. intros [|? ?] ? ? ?; done.
    + destruct (IH (calls ++ [c])) as (IH1 & IH2 & IH3).
      split; [|split].
      * rewrite IH1. split; [done|]. by intros [_ ?].
      * intros H. rewrite (IH2 H). by rewrite <- (assoc_L (++)).
      * intros err Herr.
        destruct (IH3 err Herr)
          as (before & c' & after & -> & Hb & Hc' & Hcalls).
        exists (c :: before), c', after. rewrite Hcalls.
        rewrite <- !(assoc_L (++)) in *. simpl.
        repeat split; try done. by apply all_announced_cons.
Qed.

(** X4: [provideKeys] calls [Provide] for the keys in their order and
    stops at the first call that fails: it returns nil exactly when every
    key was announced, and then it has called [Provide] once for each
    key; when it returns an error, that is the error of the first key
    that failed, every key before it was announced, and no key after it
    was tried.  With no key it returns nil without a call. *)
Theorem provideKeys_spec (cids : list cid.Cid) :
  ((provideKeys Provide cids []).2 = None ↔ all_announced [] cids) ∧
  ((provideKeys Provide cids []).2 = None →
   (provideKeys Provide cids []).1 = cids) ∧
  (∀ err, (provideKeys Provide cids []).2 = Some err →
     ∃ before c after,
       cids = before ++ c :: after ∧
       all_announced [] before ∧
       Provide before c = Some err ∧
       (provideKeys Provide cids []).1 = before ++ [c]) ∧
  provideKeys Provide [] [] = ([], None).
Proof.
  destruct (provideKeys_from cids []) as (H1 & H2 & H3).
  split; [done|]. split; [done|]. split; [done|done].
Qed.

End Routing.

End DhtProvideSpec.

(** ** walkBlock: how much of a DAG is local *)
Module WalkBlockSpec.
Import WalkBlock.

(** Induction on a node with the property known for the children found
    behind its links. *)
Definition below (P : Node → Prop) (l : Link) : Prop :=
  match l with Found child => P child | _ => True end.

Fixpoint Node_links_ind (P : Node → Prop)
    (step : ∀ raw links, Forall (below P) links → P (mkNode raw links))
    (nd : Node) : P nd :=
  match nd with
  | mkNode raw links =>
      step raw links
        ((fix all (ls : list Link) : Forall (below P) ls :=
            match ls with
            | [] => Forall_nil_2 (below P)
            | l :: rest =>
                Forall_cons_2 (below P) l rest
                  (match l return below P l with
                   | Found child => Node_links_ind P step child
                   | ErrNotFound => I
                   | GetFailed _ => I
                   end)
                  (all rest)
            end) links)
  end.

Definition found_below (l : Link) : bool :=
  match l with
  | Found child => all_found child
  | ErrNotFound => false
  | GetFailed _ => true
  end.

Definition bytes_below (links : list Link) : Z :=
  foldr Z.add 0%Z
    (omap (λ l, match l with
                | Found child => Some (present_bytes child)
                | _ => None
                end) links).

Lemma walk_u64_add_l (a b : Z) : u64 (u64 a + b) = u64 (a + b).
Proof. unfold u64. by rewrite Zplus_mod_idemp_l. Qed.

Lemma walk_u64_add_r (a b : Z) : u64 (a + u64 b) = u64 (a + b).
Proof. unfold u64. by rewrite Zplus_mod_idemp_r. Qed.

(** What the node's own walk is known to do. *)
Definition walk_ok (nd : Node) : Prop :=
  (walkBlock nd).2 = failure nd ∧
  (failure nd = None →
   walkBlock nd = (all_found nd, u64 (present_bytes nd), None)).

Lemma walkLinks_spec (links : list Link) (local : bool) (s0 : Z) :
  Forall (below walk_ok) links →
  (walkLinks walkBlock links local (u64 s0)).2
  = first_failure failure links ∧
  (first_failure failure links = None →
   walkLinks walkBlock links local (u64 s0)
   = (local && forallb found_below links,
      u64 (s0 + bytes_below links), None)).
Proof.
  intros Hall. revert local s0.
  induction Hall as [|l links Hl _ IH]; intros local s0.
  - simpl. split; [done|]. intros _.
    by rewrite andb_true_r, Z.add_0_r.
  - destruct l as [child| |err]; simpl.
    + destruct Hl as [Herr Hok].
      destruct (failure child) as [e|] eqn:Hf.
      * destruct (walkBlock child) as [[cl cs] ce]. simpl in Herr.
        subst ce. done.
      * rewrite (Hok eq_refl). rewrite walk_u64_add_r, walk_u64_add_l.
        destruct (IH (local && all_found child) (s0 + present_bytes child)%Z)
          as [IH1 IH2].
        split; [done|]. intros Hnone. rewrite (IH2 Hnone).
        unfold bytes_below. csimpl. fold (bytes_below links).
        by rewrite andb_assoc, Z.add_assoc.
    + destruct (IH false s0) as [IH1 IH2]. split; [done|].
      intros Hnone. rewrite (IH2 Hnone). by rewrite andb_false_r.
    + done.
Qed.

(** The partial result at the first link that fails. *)
Lemma walkLinks_failure (before after : list Link) (l : Link) (err : string)
    (local : bool) (s0 : Z) :
  Forall (below walk_ok) (before ++ [l]) →
  first_failure failure before = None →
  first_failure failure [l] = Some err →
  walkLinks walkBlock (before ++ l :: after) local (u64 s0)
  = (local && forallb found_below before,
     u64 (s0 + bytes_below before), Some err).
Proof.
  revert local s0. induction before as [|b before IH]; intros local s0 Hall Hb Hl.
  - simpl in *. rewrite andb_true_r, Z.add_0_r.
    apply Forall_cons in Hall as [Hok _].
    destruct l as [child| |e]; simpl in *; try done.
    + destruct Hok as [Herr _].
      destruct (failure child) as [e|] eqn:Hf; [|done].
      destruct (walkBlock child) as [[cl cs] ce]. simpl in Herr.
      subst ce. by simplify_eq.
    + by simplify_eq.
  - simpl in Hall. apply Forall_cons in Hall as [Hok Hall].
    destruct b as [child| |e]; simpl in *; try done.
    + destruct Hok as [_ Hok].
      destruct (failure child) as [e|] eqn:Hf; [done|].
      rewrite (Hok eq_refl), walk_u64_add_r, walk_u64_add_l, (IH _ _ Hall Hb Hl).
      unfold bytes_below. csimpl. fold (bytes_below before).
      by rewrite andb_assoc, Z.add_assoc.
    + rewrite (IH _ _ Hall Hb Hl). by rewrite andb_false_r.
Qed.

Lemma walkBlock_ok (nd : Node) : walk_ok nd.
Proof.
  induction nd as [raw links Hall] using Node_links_ind.
  unfold walk_ok. simpl.
  destruct (walkLinks_spec links true (Z.of_nat (length raw)) Hall)
    as [H1 H2].
  split; [done|]. intros Hnone. rewrite (H2 Hnone). done.
Qed.

(** X5: [walkBlock] returns the first error that [dagserv.Get] gives on
    a depth-first walk, and no error if there is none.  With no error,
    [local] says that no link below the node is missing, and [sizeLocal]
    is the number of raw bytes of the node and of every block found
    below it (uint64, so modulo 2^64), a missing child counting nothing.
    With an error at a link of the node itself, or below the child of
    that link, the node's [local] and [sizeLocal] cover the node and the
    links before that one, and nothing of the failing child. *)
Theorem walkBlock_spec (nd : Node) :
  (walkBlock nd).2 = failure nd ∧
  (failure nd = None →
   walkBlock nd = (all_found nd, u64 (present_bytes nd), None)) ∧
  (∀ raw before l after err,
     nd = mkNode raw (before ++ l :: after) →
     first_failure failure before = None →
     first_failure failure [l] = Some err →
     walkBlock nd
     = (forallb found_below before,
        u64 (Z.of_nat (length raw) + bytes_below before), Some err)).
Proof.
  destruct (walkBlock_ok nd) as [H1 H2]. split; [done|]. split; [done|].
  intros raw before l after err -> Hb Hl. simpl.
  rewrite (walkLinks_failure before after l err true _); try done.
  apply Forall_forall. intros x _. destruct x; simpl; try done.
  apply walkBlock_ok.
Qed.

(** A node of 3 bytes with a child of 2 bytes, a missing child, and a
    child of 1 byte that itself has a missing child. *)
Example walkBlock_partly_local :
  walkBlock
    (mkNode [Byte.x01; Byte.x02; Byte.x03]
       [Found (mkNode [Byte.x04; Byte.x05] []);
        ErrNotFound;
        Found (mkNode [Byte.x06] [ErrNotFound])])
  = (false, 6%Z, None).
Proof. reflexivity. Qed.

End WalkBlockSpec.

(** ** provideCollector: the producer is never refused *)
Module ProvideCollectorQueue.
Import ProvideCollector ProvideCollectorSpec.

(** Any number of values can be received in a row; they queue up behind
    what is held and nothing is delivered meanwhile. *)
Lemma receive_all (cs : list cid.Cid) (s : state) :
  idle_ok s → returned s = false →
  ∃ s1, run s (RecvBlock <$> cs) = Some s1 ∧
        idle_ok s1 ∧ returned s1 = false ∧
        provideKeys s1 = provideKeys s ∧ held s1 = held s ++ cs.
Proof.
  revert s. induction cs as [|c cs IH]; intros s Hi Hret.
  - exists s. by rewrite app_nil_r.
  - rewrite fmap_cons. destruct (keysOut s) eqn:Hk.
    + set (s0 := {| toProvide := toProvide s ++ [c]; nextKey := nextKey s;
                    keysOut := true; provideKeys := provideKeys s;
                    closedKeys := closedKeys s; returned := false |}).
      destruct (IH s0) as (s1 & Hr & Hi1 & Hret1 & Hp & Hh); [done|done|].
      exists s1. split.
      { unfold run. simpl. unfold step. rewrite Hret, Hk. exact Hr. }
      split; [done|]. split; [done|]. split; [done|].
      rewrite Hh. unfold held. simpl. rewrite Hk. simpl.
      by rewrite <- (assoc_L (++)).
    + set (s0 := {| toProvide := toProvide s; nextKey := c;
                    keysOut := true; provideKeys := provideKeys s;
                    closedKeys := closedKeys s; returned := false |}).
      destruct (IH s0) as (s1 & Hr & Hi1 & Hret1 & Hp & Hh); [done|done|].
      exists s1. split.
      { unfold run. simpl. unfold step. rewrite Hret, Hk. exact Hr. }
      split; [done|]. split; [done|]. split; [done|].
      rewrite Hh. unfold held. simpl. rewrite Hk. by rewrite (Hi Hk).
Qed.

(** X6: in every state that a running bridge can reach, any further
    values, however many and equal ones included, are all received
    without one being delivered first: the queue has no bound and the
    producer is never refused.  They queue up, in order, behind what is
    held, and a consumer that then takes as many values as are held gets
    everything received so far and these values, in order, a value
    written twice delivered twice. *)
Theorem provideCollector_never_refuses
    (acts : list action) (s : state) (cs : list cid.Cid) :
  Forall (λ a, keeps_running a = true) acts →
  run init acts = Some s →
  ∃ s1, run s (RecvBlock <$> cs) = Some s1 ∧
        provideKeys s1 = provideKeys s ∧ held s1 = held s ++ cs ∧
        length (held s1) = length (held s) + length cs ∧
        ∃ s2, run s1 (replicate (length (held s1)) SendKey) = Some s2 ∧
              provideKeys s2 = received acts ++ cs ∧ held s2 = [].
Proof.
  intros Hrun Hr.
  destruct (run_keeps_running acts init s Hrun eq_refl Hr) as [Hret _].
  destruct (run_conserves _ _ _ init_idle_ok Hr) as [Hi Hcons].
  simpl in Hcons.
  destruct (receive_all cs s Hi Hret) as (s1 & Hr1 & Hi1 & Hret1 & Hp1 & Hh1).
  exists s1. split; [done|]. split; [done|]. split; [done|].
  split; [by rewrite Hh1, length_app|].
  destruct (drain _ s1 Hi1 Hret1 eq_refl) as (s2 & Hd & Hp2 & Hk & Hq & _).
  exists s2. split; [done|]. split.
  - by rewrite Hp2, Hp1, Hh1, (assoc_L (++)), Hcons.
  - unfold held. by rewrite Hk.
Qed.

Lemma provideCollector_never_refuses_witness :
  let acts := [RecvBlock "A"; SendKey; RecvBlock "B"] in
  let s := {| toProvide := []; nextKey := "B"; keysOut := true;
              provideKeys := ["A"]; closedKeys := false;
              returned := false |} in
  Forall (λ a, keeps_running a = true) acts ∧
  run init acts = Some s ∧
  ∃ s1, run s (RecvBlock <$> ["B"; "C"; "B"]) = Some s1 ∧
        held s1 = ["B"; "B"; "C"; "B"].
Proof.
  intros acts s.
  assert (Forall (λ a, keeps_running a = true) acts) as H1
    by (repeat constructor).
  assert (run init acts = Some s) as H2 by reflexivity.
  split; [exact H1|]. split; [exact H2|].
  destruct (provideCollector_never_refuses acts s ["B"; "C"; "B"] H1 H2)
    as (s1 & Hr & _ & Hh & _).
  by exists s1.
Defined.

End ProvideCollectorQueue.

(** ** provideWorker: every key goes to one goroutine *)
Module ProvideWorkerKeys.
Import ProvideWorker ProvideWorkerTrace ProvideWorkerSpec.

(** What holds of the goroutines started so far, [L], and the keys taken
    so far, [T]. *)
Definition handed_out (s : state) (L : list (cid.Cid * nat))
    (T : list cid.Cid) : Prop :=
  L.*2 = seq 2 (length L) ∧
  (∀ w, next_wid s = Some w → w = 2 + length L) ∧
  (∃ rest, T = L.*1 ++ rest ∧ length rest ≤ 1 ∧
           (loop s ≠ Returned → rest = in_hand s)) ∧
  Forall (λ t, (key t, wid t) ∈ L) (tasks s) ∧
  NoDup (wid <$> tasks s).

Lemma wid_bound (L : list (cid.Cid * nat)) (k : cid.Cid) (w : nat) :
  L.*2 = seq 2 (length L) → (k, w) ∈ L → w < 2 + length L.
Proof.
  intros HL Hin.
  assert (w ∈ L.*2) as Hw by (by apply (list_elem_of_fmap_2 snd L (k, w))).
  rewrite HL in Hw. apply elem_of_seq in Hw. lia.
Qed.

Lemma step_handed_out (W : nat) (s s' : state) (a : action)
    (L : list (cid.Cid * nat)) (T : list cid.Cid) :
  handed_out s L T → step W s a = Some s' →
  handed_out s' (L ++ starts s a) (T ++ taken [a]).
Proof.
  intros (HL & Hw & (rest & HT & Hrest & Hhand) & Hin & Hnd) Hs.
  unfold handed_out, starts, next_wid, in_hand in *.
  destruct a; simpl in Hs; simpl taken.
  - (* RecvKey *)
    destruct (loop s) eqn:Hl; try done. simplify_eq. simpl.
    rewrite !app_nil_r. split; [done|]. split; [done|].
    split; [|done]. rewrite (Hhand ltac:(done)). rewrite app_nil_r.
    exists [k]. by repeat split.
  - destruct (loop s) eqn:Hl; try done. simplify_eq. simpl.
    rewrite !app_nil_r. split; [done|]. split; [done|]. split; [|done].
    exists rest. by repeat split.
  - destruct (loop s) eqn:Hl; try done; simplify_eq; simpl;
      rewrite !app_nil_r; (split; [done|]); (split; [done|]);
      (split; [|done]); exists rest; by repeat split.
  - (* Acquire *)
    destruct (loop s) eqn:Hl; try done. case_decide; [|done].
    simplify_eq. simpl. rewrite !app_nil_r.
    split; [done|]. split; [done|]. split; [|done].
    exists rest. repeat split; try done. intros _. by apply Hhand.
  - (* Go *)
    destruct (loop s) eqn:Hl; try done. simplify_eq. simpl.
    rewrite app_nil_r. specialize (Hw wid0 eq_refl). subst wid0.
    specialize (Hhand ltac:(done)). subst rest.
    split; [|split; [|split; [|split]]].
    + rewrite fmap_app, length_app, HL. simpl.
      by rewrite Nat.add_1_r, seq_S.
    + intros w [= <-]. rewrite length_app. simpl. lia.
    + exists []. rewrite fmap_app, app_nil_r. simpl.
      split; [done|]. split; [lia|done].
    + apply Forall_app. split.
      * eapply Forall_impl; [exact Hin|]. intros t Ht.
        apply elem_of_app. by left.
      * constructor; [|done]. simpl. apply elem_of_app. right.
        by apply list_elem_of_singleton.
    + rewrite fmap_app. simpl. apply NoDup_app. split; [done|].
      split; [|apply NoDup_singleton].
      intros w Hw1 Hw2%list_elem_of_singleton. subst w.
      apply list_elem_of_fmap in Hw1 as (t & Hwt & Ht).
      rewrite Forall_forall in Hin. specialize (Hin t Ht).
      pose proof (wid_bound L _ _ HL Hin). lia.
  - (* ProvideReturns *)
    destruct (tasks s !! i) as [[k w []]|] eqn:Ht; try done.
    simplify_eq. simpl. rewrite !app_nil_r.
    split; [done|]. split; [done|]. split; [by exists rest|]. split.
    + apply Forall_insert; [done|]. simpl.
      rewrite Forall_forall in Hin.
      apply (Hin (mkTask k w InProvide)). by eapply list_elem_of_lookup_2.
    + rewrite list_fmap_insert. simpl.
      rewrite list_insert_id; [done|]. by rewrite list_lookup_fmap, Ht.
  - (* Release *)
    destruct (tasks s !! i) as [[k w []]|] eqn:Ht; try done.
    destruct (limit s); [done|]. simplify_eq. simpl. rewrite !app_nil_r.
    split; [done|]. split; [done|]. split; [by exists rest|]. split.
    + by apply Forall_delete.
    + rewrite list_fmap_delete. eapply sublist_NoDup; [exact Hnd|].
      apply sublist_delete.
  - (* Handoff *)
    destruct (tasks s !! i) as [[k w []]|] eqn:Ht; try done.
    destruct (loop s) eqn:Hl; try done. case_decide; [|done].
    simplify_eq. simpl. rewrite !app_nil_r.
    split; [done|]. split; [done|]. split.
    + exists rest. repeat split; try done. intros _. by apply Hhand.
    + split; [by apply Forall_delete|].
      rewrite list_fmap_delete. eapply sublist_NoDup; [exact Hnd|].
      apply sublist_delete.
Qed.

Lemma taken_app (xs ys : list action) : taken (xs ++ ys) = taken xs ++ taken ys.
Proof.
  induction xs as [|a xs IH]; [done|]. destruct a; simpl; by rewrite IH.
Qed.

Lemma run_handed_out (W : nat) (acts : list action) (s s' : state)
    (L : list (cid.Cid * nat)) (T : list cid.Cid) :
  handed_out s L T → run W s acts = Some s' →
  handed_out s' (L ++ launched W s acts) (T ++ taken acts).
Proof.
  revert s L T. induction acts as [|a acts IH]; intros s L T Hi Hr.
  - injection Hr as <-. simpl. by rewrite !app_nil_r.
  - unfold run in Hr. simpl in Hr. simpl launched.
    destruct (step W s a) as [s1|] eqn:Hs; [|done].
    pose proof (step_handed_out W s s1 a L T Hi Hs) as Hi1.
    specialize (IH s1 _ _ Hi1 Hr).
    change (a :: acts) with ([a] ++ acts). rewrite taken_app.
    by rewrite !(assoc_L (++)).
Qed.



(** Ending the first live goroutine. *)
Lemma finish_first (W : nat) (s : state) (t : task) (rest : list task) :
  tokens_ok W s → tasks s = t :: rest →
  ∃ s', run W s (finish t 0) = Some s' ∧
        tasks s' = rest ∧ loop s' = loop s ∧ S (limit s') = limit s.
Proof.
  intros [Hl Hw] Ht. destruct t as [k w p].
  assert (∃ n, limit s = S n) as [n Hn].
  { rewrite Ht in Hl. simpl in Hl. exists (length rest + about_to_go s). lia. }
  destruct p as [|res]; unfold finish, run; simpl; rewrite Ht; simpl.
  - rewrite Hn. by eexists.
  - rewrite Hn. by eexists.
Qed.

Lemma finish_all (W : nat) (ts : list task) (s : state) :
  tokens_ok W s → tasks s = ts →
  ∃ s', run W s (ts ≫= λ t, finish t 0) = Some s' ∧
        tasks s' = [] ∧ loop s' = loop s ∧
        limit s' + length ts = limit s.
Proof.
  revert s. induction ts as [|t ts IH]; intros s Hok Ht.
  - exists s. simpl. split; [done|]. split; [done|]. split; [done|lia].
  - destruct (finish_first W s t ts Hok Ht) as (s1 & Hr1 & Ht1 & Hl1 & Hn1).
    assert (tokens_ok W s1) as Hok1 by (by eapply run_tokens_ok).
    destruct (IH s1 Hok1 Ht1) as (s' & Hr' & Ht' & Hl' & Hn').
    exists s'. split.
    + csimpl. unfold run in *. by rewrite (run_with_app _ _ _ _ _ Hr1).
    + repeat split; try done; [congruence|simpl; lia].
Qed.

(** X8: in every reachable state the live goroutines can all run to
    their end with no step of the spawner, whether it has returned or
    not: each one's [Provide] returns and its deferred [<-limit] takes
    its token out.  Afterwards no goroutine is left and [limit] holds no
    token but the one of a goroutine about to be started; after the
    spawner has returned, [limit] is empty. *)
Theorem provideWorker_goroutines_finish
    (W : nat) (acts : list action) (s : state) :
  run W init acts = Some s →
  ∃ s', run W s (tasks s ≫= λ t, finish t 0) = Some s' ∧
        tasks s' = [] ∧ loop s' = loop s ∧
        limit s' = about_to_go s ∧
        (loop s = Returned → limit s' = 0).
Proof.
  intros Hr.
  pose proof (run_tokens_ok W acts init s (init_tokens_ok W) Hr) as Hok.
  destruct (finish_all W (tasks s) s Hok eq_refl) as (s' & Hr' & Ht & Hl & Hn).
  exists s'. split; [done|]. split; [done|]. split; [done|].
  destruct Hok as [Hlim _].
  assert (limit s' = about_to_go s) as Heq by lia.
  split; [done|]. intros Hret. rewrite Heq. unfold about_to_go.
  by rewrite Hret.
Qed.

Lemma provideWorker_goroutines_finish_witness :
  let acts := [RecvKey "A"; Acquire; Go; RecvKey "B"; Acquire; Go;
               ProvideReturns 1 ProvideFailed; Closing] in
  let s := {| limit := 2; loop := Returned;
              tasks := [mkTask "A" 2 InProvide;
                        mkTask "B" 3 (AtRelease ProvideFailed)];
              warnings := 1 |} in
  run 2 init acts = Some s ∧
  ∃ s', run 2 s [ProvideReturns 0 ProvideOk; Release 0; Release 0] = Some s' ∧
        tasks s' = [] ∧ limit s' = 0.
Proof.
  intros acts s.
  assert (run 2 init acts = Some s) as H by reflexivity.
  split; [exact H|].
  destruct (provideWorker_goroutines_finish 2 acts s H)
    as (s' & Hr & Ht & _ & _ & Hl).
  exists s'. split; [exact Hr|]. split; [exact Ht|]. by apply Hl.
Defined.

End ProvideWorkerKeys.

(** ** providerQueryManager: no bound on distinct searches, no join *)
Module ProviderQueryManagerMore.
Import ProviderQueryManager ProviderQueryManagerTrace ProviderQueryManagerSpec.

Definition new_task (c : ctx_id) (k : cid.Cid) : task :=
  mkTask (mkReq k c) AtFind.

(** X9: the manager puts no bound on the searches for distinct
    ContentIDs: in any state where it is at its select, requests with a
    live context for any number of pairwise distinct ContentIDs that are
    not in the set are all accepted, one after the other: every one
    enters the set and gets its own search task, while the tasks already
    there stay. *)
Theorem providerQueryManager_unbounded
    (ctx c : ctx_id) (keys : list cid.Cid) (s : state) :
  loop s = AtSelect → c ∉ done s →
  NoDup keys → (∀ k, k ∈ keys → k ∉ kset s) →
  ∃ s', run ctx s (request_all c keys) = Some s' ∧
        tasks s' = tasks s ++ (new_task c <$> keys) ∧
        length (tasks s') = length (tasks s) + length keys ∧
        kset s' = list_to_set keys ∪ kset s ∧
        loop s' = AtSelect ∧ trace s' = trace s.
Proof.
  revert s. induction keys as [|k keys IH]; intros s Hl Hc Hnd Hnew.
  - exists s. simpl. rewrite app_nil_r, Nat.add_0_r.
    repeat split; try done. by rewrite (left_id_L ∅ (∪)).
  - apply NoDup_cons in Hnd as [Hk Hnd].
    set (s1 := {| done := done s; kset := {[k]} ∪ kset s; loop := AtSelect;
                  tasks := tasks s ++ [new_task c k]; trace := trace s |}).
    destruct (IH s1) as (s' & Hr & Ht & Hlen & Hks & Hl' & Htr);
      [done|done|done| |].
    { intros k' Hk'. simpl. rewrite elem_of_union, elem_of_singleton.
      intros [->|Hin]; [done|]. apply (Hnew k'); [|done].
      apply elem_of_cons. by right. }
    exists s'. split.
    + unfold request_all, run. csimpl. rewrite Hl. simpl.
      rewrite decide_False by done.
      rewrite decide_False by (apply Hnew, elem_of_cons; by left).
      simpl. exact Hr.
    + rewrite Hlen, Ht, Hks. simpl. rewrite length_app. simpl.
      rewrite <- (assoc_L (++)). simpl.
      split; [done|]. split; [lia|]. split; [|done].
      rewrite (assoc_L (∪)). f_equal. by rewrite (comm_L (∪)).
Qed.

Lemma providerQueryManager_unbounded_witness :
  let s := {| done := {[9]}; kset := {["X"]}; loop := AtSelect;
              tasks := [mkTask (mkReq "X" 1) (AtRange 2)];
              trace := [ConnectTo "QmQ"; ConnectTo "QmP";
                        FindProvidersAsync "X"] |} in
  (loop s = AtSelect ∧ (1 ∉ done s) ∧ NoDup ["A"; "B"; "C"]) ∧
  ∃ s', run 0 s (request_all 1 ["A"; "B"; "C"]) = Some s' ∧
        length (tasks s') = 4.
Proof.
  intros s.
  assert (loop s = AtSelect) as H1 by reflexivity.
  assert (1 ∉ done s) as H2.
  { subst s. simpl. rewrite elem_of_singleton. lia. }
  assert (NoDup ["A"; "B"; "C"]) as H3
    by (apply (bool_decide_unpack _); vm_compute; exact I).
  assert (∀ k, k ∈ ["A"; "B"; "C"] → k ∉ kset s) as H4.
  { intros k Hk. subst s. simpl. rewrite elem_of_singleton. intros ->.
    repeat (apply elem_of_cons in Hk as [Hk|Hk]; [done|]).
    by apply elem_of_nil in Hk. }
  split; [done|].
  destruct (providerQueryManager_unbounded 0 1 ["A"; "B"; "C"] s H1 H2 H3 H4)
    as (s' & Hr & _ & Hlen & _).
  exists s'. split; [exact Hr|]. by rewrite Hlen.
Defined.

(** Returning the pending connection attempts of the first task. *)
Lemma connects_return (ctx : ctx_id) (wg : nat) (s : state) (e : blockRequest)
    (rest : list task) :
  tasks s = mkTask e (AtWait wg) :: rest →
  ∃ s', run ctx s (replicate wg (ConnectReturns 0 true)) = Some s' ∧
        tasks s' = mkTask e (AtWait 0) :: rest ∧
        kset s' = kset s ∧ loop s' = loop s ∧ done s' = done s.
Proof.
  revert s. induction wg as [|wg IH]; intros s Ht.
  - by exists s.
  - set (s1 := set_task s 0 (mkTask e (AtWait wg))).
    destruct (IH s1) as (s' & Hr & Ht' & ? & ? & ?).
    { subst s1. simpl. by rewrite Ht. }
    exists s'. split; [|done].
    unfold run. simpl. rewrite Ht. simpl. exact Hr.
Qed.

(** Ending the first search task. *)
Lemma finish_first_search (ctx : ctx_id) (s : state) (t : task) (rest : list task) :
  tasks s = t :: rest →
  ∃ s', run ctx s (finish t 0) = Some s' ∧
        tasks s' = rest ∧ loop s' = loop s ∧ done s' = done s.
Proof.
  intros Ht. destruct t as [e p].
  assert (∀ wg s0, tasks s0 = mkTask e (AtWait wg) :: rest →
            ∃ s', run ctx s0 (replicate wg (ConnectReturns 0 true)
                              ++ [Remove 0]) = Some s' ∧
                  tasks s' = rest ∧ loop s' = loop s0 ∧ done s' = done s0)
    as Hwait.
  { intros wg s0 Ht0.
    destruct (connects_return ctx wg s0 e rest Ht0)
      as (s1 & Hr1 & Ht1 & _ & Hl1 & Hd1).
    unfold run in *. rewrite (run_with_app _ _ _ _ _ Hr1). simpl.
    rewrite Ht1. simpl. eexists. split; [done|]. by simpl. }
  destruct s as [d ks lp ts tr]. simpl in Ht. subst ts.
  destruct p as [|wg|wg]; unfold finish.
  - destruct (Hwait 0 {| done := d; kset := ks; loop := lp;
                         tasks := mkTask e (AtWait 0) :: rest;
                         trace := FindProvidersAsync (Cid e) :: tr |})
      as (s' & Hr & ? & ? & ?); [done|].
    exists s'. split; [exact Hr|done].
  - destruct (Hwait wg {| done := d; kset := ks; loop := lp;
                          tasks := mkTask e (AtWait wg) :: rest;
                          trace := tr |})
      as (s' & Hr & ? & ? & ?); [done|].
    exists s'. split; [exact Hr|done].
  - by apply Hwait.
Qed.

Lemma finish_all_searches (ctx : ctx_id) (ts : list task) (s : state) :
  tasks s = ts →
  ∃ s', run ctx s (ts ≫= λ t, finish t 0) = Some s' ∧
        tasks s' = [] ∧ loop s' = loop s ∧ done s' = done s.
Proof.
  revert s. induction ts as [|t ts IH]; intros s Ht.
  - by exists s.
  - destruct (finish_first_search ctx s t ts Ht) as (s1 & Hr1 & Ht1 & Hl1 & Hd1).
    destruct (IH s1 Ht1) as (s' & Hr' & Ht' & Hl' & Hd').
    exists s'. split.
    + csimpl. unfold run in *. by rewrite (run_with_app _ _ _ _ _ Hr1).
    + repeat split; try done; congruence.
Qed.

(** After the manager has returned nothing is started and nothing
    enters the set. *)
Lemma step_after_return (ctx : ctx_id) (s s' : state) (a : action) :
  loop s = Returned → step ctx s a = Some s' →
  loop s' = Returned ∧ kset s' ⊆ kset s ∧
  length (tasks s') ≤ length (tasks s).
Proof.
  intros Hl Hs. destruct a; simpl in Hs; try (by rewrite Hl in Hs).
  - by simplify_eq.
  - destruct (tasks s !! i) as [[e []]|]; try done. simplify_eq. simpl.
    by rewrite length_insert.
  - destruct (tasks s !! i) as [[e []]|]; try done. simplify_eq. simpl.
    by rewrite length_insert.
  - destruct (tasks s !! i) as [[e []]|]; try done. simplify_eq. simpl.
    by rewrite length_insert.
  - destruct (tasks s !! i) as [[e [|[|n]|[|n]]]|]; try done;
      simplify_eq; simpl; by rewrite length_insert.
  - destruct (tasks s !! i) as [[e [| |[|n]]]|] eqn:Ht; try done.
    simplify_eq. simpl. split; [done|]. split.
    + intros k Hk. apply elem_of_difference in Hk. tauto.
    + rewrite length_delete by eauto. lia.
Qed.

(** X10: the search tasks are not joined.  Once the manager has
    returned, it takes no request in any continuation: it stays
    returned, no ContentID enters the set and no task is added.  The
    tasks in flight can still all run to their end without it (the call
    if it was not made, the end of the providers channel, the return of
    the pending connection attempts, the removal), and then no task is
    left and the set is empty. *)
Theorem providerQueryManager_not_joined
    (ctx : ctx_id) (acts : list action) (s : state) :
  run ctx init acts = Some s → loop s = Returned →
  (∀ acts' s', run ctx s acts' = Some s' →
     loop s' = Returned ∧ kset s' ⊆ kset s ∧
     length (tasks s') ≤ length (tasks s)) ∧
  (∀ e, step ctx s (RecvReq e) = None) ∧
  ∃ s', run ctx s (tasks s ≫= λ t, finish t 0) = Some s' ∧
        tasks s' = [] ∧ kset s' = ∅ ∧ loop s' = Returned.
Proof.
  intros Hr Hl. split; [|split].
  - intros acts' s' Hr'.
    apply (run_with_invariant (step ctx)
             (λ s1, loop s1 = Returned ∧ kset s1 ⊆ kset s ∧
                    length (tasks s1) ≤ length (tasks s)) acts' s s');
      [|done|done].
    intros s1 a s2 (Hl1 & Hk1 & Hn1) Hs.
    destruct (step_after_return ctx s1 s2 a Hl1 Hs) as (? & ? & ?).
    split; [done|]. split; [|lia]. by transitivity (kset s1).
  - intros e. simpl. by rewrite Hl.
  - destruct (finish_all_searches ctx (tasks s) s eq_refl) as (s' & Hr' & Ht & Hl' & _).
    exists s'. split; [done|]. split; [done|]. split; [|congruence].
    pose proof (run_dedup_inv ctx acts init s init_dedup_inv Hr) as Hinv.
    pose proof (run_dedup_inv ctx _ s s' Hinv Hr') as Hinv'.
    apply set_eq. intros k. split; [|by intros ?%not_elem_of_empty].
    intros Hk. destruct (Hinv' k) as [H1 _].
    rewrite (member_1 _ _ Hk) in H1. unfold in_flight, about_to_go in H1.
    rewrite Ht, Hl', Hl in H1. done.
Qed.

Lemma providerQueryManager_not_joined_witness :
  let acts := [RecvReq (mkReq "X" 1); Go; Find 0; Provider 0 "QmQ";
               RecvReq (mkReq "Y" 2); Go; Cancel 0; CtxDone] in
  let s := {| done := {[0]}; kset := {["Y"]} ∪ ({["X"]} ∪ ∅);
              loop := Returned;
              tasks := [mkTask (mkReq "X" 1) (AtRange 1);
                        mkTask (mkReq "Y" 2) AtFind];
              trace := [ConnectTo "QmQ"; FindProvidersAsync "X"] |} in
  (run 0 init acts = Some s ∧ loop s = Returned) ∧
  ∃ s', run 0 s [Exhausted 0; ConnectReturns 0 true; Remove 0;
                 Find 0; Exhausted 0; Remove 0] = Some s' ∧
        tasks s' = [] ∧ kset s' = ∅.
Proof.
  intros acts s.
  assert (run 0 init acts = Some s) as H1 by (vm_compute; reflexivity).
  assert (loop s = Returned) as H2 by reflexivity.
  split; [done|].
  destruct (providerQueryManager_not_joined 0 acts s H1 H2)
    as (_ & _ & s' & Hr & Ht & Hk & _).
  by exists s'.
Defined.

End ProviderQueryManagerMore.

(** ** taskWorker: the counters over a whole run *)
Module TaskWorkerAccounting.
Import bsmsg TaskWorker TaskWorkerTrace TaskWorkerSpec.

Section Accounting.
Context {M : Type} `{!BitSwapMessage M}.

Lemma sent_calls (l : list (event M)) : sent (calls l) = sent l.
Proof.
  induction l as [|ev l IH]; [done|].
  unfold calls in *. rewrite filter_cons.
  destruct ev; simpl; try done; by rewrite <- IH.
Qed.

Lemma notified_calls (l : list (event M)) : notified (calls l) = notified l.
Proof.
  induction l as [|ev l IH]; [done|].
  unfold calls in *. rewrite filter_cons.
  destruct ev; simpl; try done; by rewrite <- IH.
Qed.

Lemma sent_Count (blks : list blocks.Block) :
  sent (Count <$> blks : list (event M)) = [].
Proof. by induction blks. Qed.

Lemma notified_Count (blks : list blocks.Block) :
  notified (Count <$> blks : list (event M)) = [].
Proof. by induction blks. Qed.

Lemma sent_app (l1 l2 : list (event M)) :
  sent (l1 ++ l2) = sent l1 ++ sent l2.
Proof. apply omap_app. Qed.

Lemma notified_app (l1 l2 : list (event M)) :
  notified (l1 ++ l2) = notified l1 ++ notified l2.
Proof. apply omap_app. Qed.

Lemma sent_process (ok : bool) (envelope : Envelope M) (w : world M) :
  sent (trace (process ok envelope w)) = sent (trace w) ++ [envelope] ∧
  notified (trace (process ok envelope w))
  = notified (trace w) ++ [Peer envelope].
Proof.
  destruct (process_spec ok envelope w) as [Hcalls _].
  rewrite <- (sent_calls (trace (process ok envelope w))).
  rewrite <- (notified_calls (trace (process ok envelope w))).
  rewrite Hcalls, !sent_app, !notified_app.
  by rewrite sent_calls, notified_calls, sent_Count, notified_Count.
Qed.

Lemma blocks_of_snoc (envs : list (Envelope M)) (envelope : Envelope M) :
  blocks_of (envs ++ [envelope])
  = (blocks_of envs + Z.of_nat (length (Blocks (Message envelope))))%Z.
Proof.
  induction envs as [|e envs IH]; simpl; [lia|]. rewrite IH. lia.
Qed.

Lemma bytes_of_snoc (envs : list (Envelope M)) (envelope : Envelope M) :
  bytes_of (envs ++ [envelope])
  = (bytes_of envs + total_bytes (Blocks (Message envelope)))%Z.
Proof.
  induction envs as [|e envs IH]; simpl; [unfold total_bytes; lia|].
  rewrite IH. lia.
Qed.

Lemma blocks_of_app (l1 l2 : list (Envelope M)) :
  blocks_of (l1 ++ l2) = (blocks_of l1 + blocks_of l2)%Z.
Proof. induction l1 as [|e l1 IH]; simpl; [done|]. rewrite IH. lia. Qed.

Lemma bytes_of_app (l1 l2 : list (Envelope M)) :
  bytes_of (l1 ++ l2) = (bytes_of l1 + bytes_of l2)%Z.
Proof. induction l1 as [|e l1 IH]; simpl; [done|]. rewrite IH. lia. Qed.

(** The locked section run by another worker adds its envelope to the
    shared counters. *)
Lemma counted_elsewhere_spec (envelope : Envelope M) (w : world M) :
  is_u64 (blocksSent (counts w)) → is_u64 (dataSent (counts w)) →
  trace (counted_elsewhere envelope w) = trace w ∧
  blocksSent (counts (counted_elsewhere envelope w))
  = u64 (blocksSent (counts w)
         + Z.of_nat (length (Blocks (Message envelope)))) ∧
  dataSent (counts (counted_elsewhere envelope w))
  = u64 (dataSent (counts w) + total_bytes (Blocks (Message envelope))).
Proof.
  intros Hb Hd. unfold counted_elsewhere. simpl.
  destruct (count_loop (Blocks (Message envelope)) w) as (_ & H1 & H2 & Hu).
  destruct (Hu Hb Hd) as [Hb' Hd'].
  split; [done|]. by rewrite <- (u64_id _ Hb'), <- (u64_id _ Hd'), H1, H2.
Qed.

(** The books of a worker that started with the record [T0], [N0] of its
    calls and found the shared counters at [b0] and [d0], after it has
    received the envelopes [S] while the other workers counted the
    envelopes [E]. *)
Definition accounted (T0 : list (Envelope M)) (N0 : list peer.ID)
    (b0 d0 : Z) (s : state) (S E : list (Envelope M)) : Prop :=
  sent (trace (bs s)) = T0 ++ S ∧
  notified (trace (bs s)) = N0 ++ (Peer <$> S) ∧
  blocksSent (counts (bs s)) = u64 (b0 + blocks_of S + blocks_of E) ∧
  dataSent (counts (bs s)) = u64 (d0 + bytes_of S + bytes_of E).

Lemma sent_emit_log (w : world M) (ev : event M) :
  is_call ev = false →
  sent (trace (emit ev w)) = sent (trace w) ∧
  notified (trace (emit ev w)) = notified (trace w).
Proof.
  intros Hev. rewrite trace_emit, sent_app, notified_app.
  destruct ev; try done; simpl; by rewrite !app_nil_r.
Qed.

Lemma step_accounted (T0 : list (Envelope M)) (N0 : list peer.ID) (b0 d0 : Z)
    (s s' : state) (a : action) (S E : list (Envelope M)) :
  accounted T0 N0 b0 d0 s S E → step s a = Some s' →
  accounted T0 N0 b0 d0 s' (S ++ receives s a) (E ++ counted_by_others [a]).
Proof.
  unfold accounted, receives, counted_by_others.
  intros (Hs & Hn & Hb & Hd) Hstep.
  destruct a; simpl in Hstep; csimpl.
  - simplify_eq. simpl. by rewrite !app_nil_r.
  - destruct (pc s) as [|[]|]; simplify_eq; simpl; by rewrite !app_nil_r.
  - destruct (pc s) as [|[]|]; simplify_eq; simpl; by rewrite !app_nil_r.
  - simplify_eq. simpl. by rewrite !app_nil_r.
  - destruct (pc s), (Outbox s); simplify_eq; simpl; by rewrite !app_nil_r.
  - destruct (pc s) as [|[|envelope|]|] eqn:Hpc; simplify_eq.
    + (* an envelope *)
      cbn [bs]. unfold again.
      destruct (sent_emit_log (process sent0 envelope (bs s))
                  (LogEvent "Bitswap.TaskWorker.Loop") eq_refl) as [-> ->].
      destruct (sent_process sent0 envelope (bs s)) as [-> ->].
      destruct (process_spec sent0 envelope (bs s)) as [_ Hcounts].
      destruct Hcounts as [Hb' Hd'].
      { rewrite Hb. apply u64_is_u64. }
      { rewrite Hd. apply u64_is_u64. }
      cbn [emit counts]. rewrite Hb', Hd', Hb, Hd, Hs, Hn.
      rewrite fmap_app, blocks_of_snoc, bytes_of_snoc, !app_nil_r.
      rewrite !u64_add_l, <- !(assoc_L (++)).
      split; [done|]. split; [done|]. split; f_equal; lia.
    + (* a withdrawn one *)
      rewrite !app_nil_r. cbn [bs]. unfold again.
      destruct (sent_emit_log (bs s)
                  (LogEvent "Bitswap.TaskWorker.Loop") eq_refl) as [-> ->].
      done.
  - destruct (pc s); try done; destruct (canceled s); simplify_eq;
      rewrite !app_nil_r; cbn [bs];
      destruct (sent_emit_log (bs s)
                  (LogDebug "bitswap task worker shutting down...") eq_refl)
        as [-> ->]; done.
  - destruct (Outbox s); simplify_eq. simpl. by rewrite !app_nil_r.
  - simplify_eq. cbn [bs]. rewrite !app_nil_r.
    destruct (counted_elsewhere_spec envelope (bs s)) as (-> & -> & ->).
    { rewrite Hb. apply u64_is_u64. }
    { rewrite Hd. apply u64_is_u64. }
    rewrite Hb, Hd, blocks_of_snoc, bytes_of_snoc, !u64_add_l.
    split; [done|]. split; [done|]. split; f_equal; lia.
Qed.

Lemma counted_by_others_cons (a : @action M) (acts : list (@action M)) :
  counted_by_others (a :: acts)
  = counted_by_others [a] ++ counted_by_others acts.
Proof. unfold counted_by_others. csimpl. by rewrite app_nil_r. Qed.

Lemma run_accounted (T0 : list (Envelope M)) (N0 : list peer.ID) (b0 d0 : Z)
    (acts : list action) (s s' : state) (S E : list (Envelope M)) :
  accounted T0 N0 b0 d0 s S E → run s acts = Some s' →
  accounted T0 N0 b0 d0 s' (S ++ received s acts)
            (E ++ counted_by_others acts).
Proof.
  revert s S E. induction acts as [|a acts IH]; intros s S E Hacc Hr.
  - injection Hr as <-. simpl. by rewrite !app_nil_r.
  - unfold run in Hr. simpl in Hr. simpl received.
    destruct (step s a) as [s1|] eqn:Hs; [|done].
    pose proof (step_accounted _ _ _ _ s s1 a S E Hacc Hs) as Hacc1.
    specialize (IH s1 _ _ Hacc1 Hr).
    by rewrite counted_by_others_cons, !(assoc_L (++)).
Qed.

(** X11: a task worker among the other task workers of the same
    Bitswap, from any state on and over every schedule of its own steps
    and theirs.  [SendBlocks] has been called by this worker for exactly
    the envelopes that it received from an inner channel, once each and
    in the order received (for none that was withdrawn, never arrived or
    was taken by another worker); [MessageSent] has been called as
    often, for the peers of these envelopes in the same order.  The
    shared counters have grown, modulo 2^64, by the blocks and the raw
    bytes of the envelopes this worker received and of the envelopes the
    other workers counted meanwhile: no count is lost and none is made
    twice. *)
Theorem taskWorker_accounting (acts : list action) (s0 s : state) :
  is_u64 (blocksSent (counts (bs s0))) → is_u64 (dataSent (counts (bs s0))) →
  run s0 acts = Some s →
  sent (trace (bs s)) = sent (trace (bs s0)) ++ received s0 acts ∧
  notified (trace (bs s))
  = notified (trace (bs s0)) ++ (Peer <$> received s0 acts) ∧
  blocksSent (counts (bs s))
  = u64 (blocksSent (counts (bs s0)) + blocks_of (received s0 acts)
         + blocks_of (counted_by_others acts)) ∧
  dataSent (counts (bs s))
  = u64 (dataSent (counts (bs s0)) + bytes_of (received s0 acts)
         + bytes_of (counted_by_others acts)).
Proof.
  intros Hb Hd Hr.
  assert (accounted (sent (trace (bs s0))) (notified (trace (bs s0)))
            (blocksSent (counts (bs s0))) (dataSent (counts (bs s0)))
            s0 [] []) as Hacc.
  { unfold accounted. simpl. rewrite !app_nil_r, !Z.add_0_r.
    by rewrite !u64_id. }
  exact (run_accounted _ _ _ _ acts s0 s [] [] Hacc Hr).
Qed.

End Accounting.

(** Two envelopes of two blocks are sent by this worker, one
    transmission failing; a withdrawn offer counts nothing; another
    worker takes one offer and counts its envelope in between. *)
Lemma taskWorker_accounting_witness :
  let acts := [Offer (Ready two_blocks); Offer Withdrawn; RecvOutbox;
               RecvEnvelope false; OtherCounts two_blocks; RecvOutbox;
               RecvEnvelope true; Offer (Ready two_blocks); OtherRecvOutbox;
               Offer Pending; RecvOutbox; Fill two_blocks;
               RecvEnvelope true] in
  ∃ s, run init acts = Some s ∧
       sent (trace (bs s)) = [two_blocks; two_blocks] ∧
       blocksSent (counts (bs s)) = 6%Z ∧ dataSent (counts (bs s)) = 12%Z.
Proof.
  intros acts.
  destruct (run init acts) as [s|] eqn:H; [|by vm_compute in H].
  exists s. split; [done|].
  assert (is_u64 (blocksSent (counts (bs (@init (list blocks.Block))))))
    as Hb by (by vm_compute).
  assert (is_u64 (dataSent (counts (bs (@init (list blocks.Block))))))
    as Hd by (by vm_compute).
  destruct (taskWorker_accounting acts init s Hb Hd H) as (Hs & _ & Hb' & Hd').
  by rewrite Hs, Hb', Hd'.
Defined.

End TaskWorkerAccounting.

(** ** rebroadcastWorker: what holds in every state *)
Module RebroadcastWorkerInvariants.
Import RebroadcastWorker.

Definition well_run (ctx : ctx_id) (capacity : nat) (s : state) : Prop :=
  length (findKeys s) ≤ capacity ∧
  Forall (λ e, Ctx e = ctx) (submitted s) ∧
  (∀ e, pc s = AtSend e → Ctx e = ctx) ∧
  (tickStopped s = true ↔ pc s = Returned) ∧
  broadcastStopped s = tickStopped s ∧
  (pc s = Returned → parentDone s = true).

Lemma step_well_run (ctx : ctx_id) (capacity : nat) (s s' : state)
    (a : action) :
  well_run ctx capacity s → step ctx capacity s a = Some s' →
  well_run ctx capacity s'.
Proof.
  unfold well_run, submitted.
  intros (Hcap & Hctx & Hsend & Hstop & Hboth & Hdone) Hs.
  destruct a; simpl in Hs.
  - by simplify_eq.
  - simplify_eq. simpl. repeat split; try done; by apply Hstop.
  - destruct (managerUp s); [|done].
    destruct (findKeys s) as [|e rest] eqn:Hf; [done|]. simplify_eq. simpl.
    split; [simpl in Hcap; lia|]. split; [|done].
    by rewrite <- (assoc_L (++)).
  - destruct (managerUp s && parentDone s); by simplify_eq.
  - destruct (pc s) eqn:Hpc; by simplify_eq.
  - destruct (pc s) eqn:Hpc; try done.
    destruct (wants s) as [|en0 rest] eqn:Hw; [simplify_eq; by rewrite Hpc|].
    destruct ((en0 :: rest) !! i) as [en|]; [|done]. simplify_eq. simpl.
    split; [done|]. split; [done|]. split; [by intros e [= <-]|].
    split; [|done]. rewrite Hstop. by split.
  - destruct (pc s) as [|e|] eqn:Hpc; try done.
    pose proof (Hsend e eq_refl) as He.
    repeat case_decide; try done.
    + simplify_eq. simpl. rewrite length_app. simpl.
      split; [lia|]. split.
      { rewrite (assoc_L (++)). apply Forall_app. split; [done|].
        by constructor. }
      split; [done|]. split; [|done]. rewrite Hstop. by split.
    + destruct (managerUp s); [|done]. simplify_eq. simpl.
      split; [done|]. split.
      { rewrite <- (assoc_L (++)). apply Forall_app in Hctx as [H1 H2].
        apply Forall_app. split; [done|]. apply Forall_app.
        split; [by constructor|done]. }
      split; [done|]. split; [|done]. rewrite Hstop. by split.
  - destruct (pc s) eqn:Hpc; try done.
    destruct (parentDone s) eqn:Hp; [|done]. simplify_eq. simpl.
    by repeat split.
Qed.

(** X12: in every state that the worker and its surroundings can reach:
    the worker has returned only if the parent context was canceled; the
    two timers are stopped together, exactly when the worker has
    returned, never while it runs; every request that it has submitted,
    and the one it is sending, carries the worker's own context; and the
    buffer of [bs.findKeys] never holds more than its capacity. *)
Theorem rebroadcastWorker_invariants
    (ctx : ctx_id) (capacity : nat) (acts : list action) (s : state) :
  run ctx capacity init acts = Some s →
  (pc s = Returned → parentDone s = true) ∧
  (tickStopped s = true ↔ pc s = Returned) ∧
  broadcastStopped s = tickStopped s ∧
  Forall (λ e, Ctx e = ctx) (submitted s) ∧
  (∀ e, pc s = AtSend e → Ctx e = ctx) ∧
  length (findKeys s) ≤ capacity.
Proof.
  intros Hr.
  assert (well_run ctx capacity init) as Hi.
  { unfold well_run. simpl. repeat split; try done; lia. }
  pose proof (run_with_invariant (step ctx capacity) (well_run ctx capacity)
                acts init s
                (λ s1 a s2, step_well_run ctx capacity s1 s2 a) Hi Hr)
    as (H1 & H2 & H3 & H4 & H5 & H6).
  done.
Qed.

Lemma rebroadcastWorker_invariants_witness :
  let acts := [SetWants [wantlist.mkEntry "X" 1]; Broadcast 0; Send;
               Tick; ManagerRecv; Broadcast 0; Send; CancelParent;
               ParentDone] in
  ∃ s, run 5 1 init acts = Some s ∧
       submitted s = [mkReq "X" 5; mkReq "X" 5] ∧
       Forall (λ e, Ctx e = 5) (submitted s) ∧
       broadcastStopped s = tickStopped s.
Proof.
  intros acts.
  destruct (run 5 1 init acts) as [s|] eqn:H; [|by vm_compute in H].
  exists s. split; [done|].
  destruct (rebroadcastWorker_invariants 5 1 acts s H)
    as (_ & _ & Hb & Hf & _).
  split; [|done]. vm_compute in H. by injection H as <-.
Defined.

End RebroadcastWorkerInvariants.

(** ** The announce pipeline: from new block to goroutine *)
Module ProvidePipelineSpec.
Import ProvidePipeline.

Abbreviation held := ProvideCollector.held.
Abbreviation in_hand := ProvideWorkerTrace.in_hand.

(** What a step of the bridge does to the list of keys it has sent. *)
Lemma step_provideKeys (b b' : ProvideCollector.state)
    (a : ProvideCollector.action) :
  ProvideCollector.step b a = Some b' →
  ProvideCollector.provideKeys b'
  = ProvideCollector.provideKeys b
    ++ match a with
       | ProvideCollector.SendKey => [ProvideCollector.nextKey b]
       | _ => []
       end.
Proof.
  unfold ProvideCollector.step. intros Hs.
  destruct (ProvideCollector.returned b); [done|].
  destruct a; simpl in *.
  - destruct (ProvideCollector.keysOut b); simplify_eq; simpl;
      by rewrite app_nil_r.
  - simplify_eq. simpl. by rewrite app_nil_r.
  - destruct (ProvideCollector.keysOut b); [|done].
    destruct (ProvideCollector.toProvide b); by simplify_eq.
  - simplify_eq. simpl. by rewrite app_nil_r.
Qed.

(** The books of the pipeline after the keys [R] were received and the
    goroutines [L] started; [T] are the keys the spawner has taken. *)
Definition piped (B W : nat) (s : state) (R : list cid.Cid)
    (L : list (cid.Cid * nat)) : Prop :=
  ∃ T, ProvideCollector.idle_ok (bridge s) ∧
       ProvideCollector.provideKeys (bridge s) ++ held (bridge s) = R ∧
       ProvideWorkerKeys.handed_out (pool s) L T ∧
       ProvideCollector.provideKeys (bridge s) = T ++ keys s ∧
       ProvideWorkerSpec.tokens_ok W (pool s) ∧
       length (keys s) ≤ B.

Definition starts_of (s : state) (a : action) : list (cid.Cid * nat) :=
  match a with
  | Pool a' => ProvideWorkerTrace.starts (pool s) a'
  | _ => []
  end.

Lemma bridge_step_piped (B W : nat) (s : state)
    (b : ProvideCollector.state) (a : ProvideCollector.action)
    (ks : list cid.Cid) (R : list cid.Cid) (L : list (cid.Cid * nat)) :
  piped B W s R L →
  ProvideCollector.step (bridge s) a = Some b →
  ks = keys s ++ match a with
                 | ProvideCollector.SendKey =>
                     [ProvideCollector.nextKey (bridge s)]
                 | _ => []
                 end →
  length ks ≤ B →
  piped B W {| bridge := b; keys := ks; pool := pool s |}
        (R ++ ProvideCollector.received [a]) L.
Proof.
  intros (T & Hi & HR & Hh & HT & Htok & Hlen) Hs -> Hlen'.
  destruct (ProvideCollectorSpec.step_conserves _ _ _ Hi Hs) as [Hi' Hc].
  exists T. simpl. split; [done|]. split; [by rewrite Hc, HR|].
  split; [done|]. split; [|done].
  rewrite (step_provideKeys _ _ _ Hs), HT. by rewrite (assoc_L (++)).
Qed.

Lemma pool_step_piped (B W : nat) (s : state) (p : ProvideWorker.state)
    (a : ProvideWorker.action) (ks : list cid.Cid) (R : list cid.Cid)
    (L : list (cid.Cid * nat)) :
  piped B W s R L →
  ProvideWorker.step W (pool s) a = Some p →
  keys s = ProvideWorkerTrace.taken [a] ++ ks →
  piped B W {| bridge := bridge s; keys := ks; pool := p |} R
        (L ++ ProvideWorkerTrace.starts (pool s) a).
Proof.
  intros (T & Hi & HR & Hh & HT & Htok & Hlen) Hs Hks.
  exists (T ++ ProvideWorkerTrace.taken [a]). simpl.
  split; [done|]. split; [done|].
  split; [by apply (ProvideWorkerKeys.step_handed_out W (pool s))|].
  split; [by rewrite HT, Hks, (assoc_L (++))|].
  split; [by eapply ProvideWorkerSpec.step_tokens_ok|].
  rewrite Hks, length_app in Hlen. lia.
Qed.

Lemma step_piped (B W : nat) (s s' : state) (a : action)
    (R : list cid.Cid) (L : list (cid.Cid * nat)) :
  piped B W s R L → step B W s a = Some s' →
  piped B W s' (R ++ received [a]) (L ++ starts_of s a).
Proof.
  intros Hp Hs. pose proof Hp as (T & _ & _ & _ & _ & _ & Hlen).
  destruct a as [a'|a'|].
  - (* the bridge *)
    assert (received [Bridge a'] = ProvideCollector.received [a']) as ->
      by (by destruct a').
    simpl starts_of. rewrite app_nil_r.
    destruct a'; cbn -[ProvideCollector.step] in Hs.
    + destruct (ProvideCollector.step (bridge s) _) as [b|] eqn:Hb;
        cbn in Hs; simplify_eq.
      apply (bridge_step_piped B W s b _ _ R L Hp Hb); [|done].
      by rewrite app_nil_r.
    + destruct (ProvideCollector.step (bridge s) _) as [b|] eqn:Hb;
        cbn in Hs; simplify_eq.
      apply (bridge_step_piped B W s b _ _ R L Hp Hb); [|done].
      by rewrite app_nil_r.
    + case_decide; [|done].
      destruct (ProvideCollector.step (bridge s) _) as [b|] eqn:Hb;
        cbn in Hs; simplify_eq.
      apply (bridge_step_piped B W s b _ _ R L Hp Hb); [done|].
      rewrite length_app. simpl. lia.
    + destruct (ProvideCollector.step (bridge s) _) as [b|] eqn:Hb;
        cbn in Hs; simplify_eq.
      apply (bridge_step_piped B W s b _ _ R L Hp Hb); [|done].
      by rewrite app_nil_r.
  - (* the pool *)
    assert (received [Pool a'] = []) as -> by done.
    rewrite app_nil_r. simpl starts_of.
    destruct a'; cbn -[ProvideWorker.step] in Hs;
      try (destruct (ProvideWorker.step W (pool s) _) as [p|] eqn:Hpl;
           cbn in Hs; simplify_eq;
           by apply (pool_step_piped B W s p _ _ R L Hp Hpl)).
    + destruct (keys s) as [|k' rest] eqn:Hk; [done|].
      case_decide; [|done]. subst k'.
      destruct (ProvideWorker.step W (pool s) (ProvideWorker.RecvKey k))
        as [p|] eqn:Hpl; cbn in Hs; simplify_eq.
      by apply (pool_step_piped B W s p _ _ R L Hp Hpl).
    + destruct (ProvideCollector.closedKeys (bridge s)); [|done].
      destruct (keys s) as [|k' rest] eqn:Hk; [|done].
      destruct (ProvideWorker.step W (pool s) ProvideWorker.KeysClosed)
        as [p|] eqn:Hpl; cbn in Hs; simplify_eq.
      by apply (pool_step_piped B W s p _ _ R L Hp Hpl).
  - (* the handover *)
    simpl received. simpl starts_of. rewrite !app_nil_r.
    cbn -[ProvideCollector.step ProvideWorker.step] in Hs.
    destruct (keys s) as [|k' rest] eqn:Hk; [|done].
    destruct (ProvideCollector.step (bridge s) ProvideCollector.SendKey)
      as [b|] eqn:Hb; [|done].
    cbn -[ProvideCollector.step ProvideWorker.step] in Hs.
    destruct (ProvideWorker.step W (pool s) _) as [p|] eqn:Hpl;
      cbn in Hs; simplify_eq.
    set (k := ProvideCollector.nextKey (bridge s)) in *.
    assert (piped (S B) W {| bridge := b; keys := [k]; pool := pool s |}
              R L) as Hmid.
    { destruct Hp as (T' & ? & ? & ? & ? & ? & ?).
      assert (piped (S B) W s R L) as Hp'.
      { exists T'. do 5 (split; [done|]). lia. }
      pose proof (bridge_step_piped (S B) W s b _ [k] R L Hp' Hb) as H'.
      simpl in H'. rewrite app_nil_r in H'. apply H'.
      - by rewrite Hk.
      - simpl. lia. }
    pose proof (pool_step_piped (S B) W _ p (ProvideWorker.RecvKey k) [] R L
                  Hmid Hpl eq_refl) as Hend.
    simpl in Hend. rewrite app_nil_r in Hend.
    destruct Hend as (T' & ? & ? & ? & ? & ? & ?).
    exists T'. do 5 (split; [done|]). simpl. lia.
Qed.

Lemma pipeline_received_app (xs ys : list action) :
  received (xs ++ ys) = received xs ++ received ys.
Proof.
  induction xs as [|a xs IH]; [done|].
  destruct a as [[]| |]; simpl; by rewrite IH.
Qed.

Lemma run_piped (B W : nat) (acts : list action) (s s' : state)
    (R : list cid.Cid) (L : list (cid.Cid * nat)) :
  piped B W s R L → run B W s acts = Some s' →
  piped B W s' (R ++ received acts) (L ++ launched B W s acts).
Proof.
  revert s R L. induction acts as [|a acts IH]; intros s R L Hp Hr.
  - injection Hr as <-. simpl. by rewrite !app_nil_r.
  - unfold run in Hr. simpl in Hr. simpl launched.
    destruct (step B W s a) as [s1|] eqn:Hs; [|done].
    pose proof (step_piped B W s s1 a R L Hp Hs) as Hp1.
    specialize (IH s1 _ _ Hp1 Hr).
    change (a :: acts) with ([a] ++ acts). rewrite pipeline_received_app.
    unfold starts_of in IH. by rewrite !(assoc_L (++)).
Qed.



End ProvidePipelineSpec.

(** ** deserializeNode: from the decoded object to the DAG node *)
Module ObjectNodeSpec.
Import ObjectNode.

Section Decoders.
Context {E : Type}.
Variable DecodeString : string → E + list Byte.byte.
Variable Decode : string → E + cid.Cid.

(** What the loop gives when it gets through, and where it stops when it
    does not. *)
Lemma decode_links_spec (ls : list Link) :
  (∀ out, decode_links Decode ls = inr out →
     length out = length ls ∧
     lName <$> out = Name <$> ls ∧ lSize <$> out = Size <$> ls ∧
     (inr ∘ lCid) <$> out = (Decode ∘ Hash) <$> ls) ∧
  (∀ f, decode_links Decode ls = inl f →
     ∃ before link after err,
       ls = before ++ link :: after ∧
       Forall (λ l, ∃ c, Decode (Hash l) = inr c) before ∧
       Decode (Hash link) = inl err ∧ f = CidDecodeFailed err).
Proof.
  induction ls as [|link ls [IHok IHerr]]; simpl.
  - split; [by intros out [= <-]|done].
  - destruct (Decode (Hash link)) as [err|c] eqn:Hd.
    + split; [done|]. intros f [= <-]. by exists [], link, ls, err.
    + destruct (decode_links Decode ls) as [f'|out'] eqn:Hl.
      * split; [done|]. intros f [= <-].
        destruct (IHerr f' eq_refl)
          as (before & l' & after & err & -> & Hb & Hl' & ->).
        exists (link :: before), l', after, err. repeat split; try done.
        constructor; [by exists c|done].
      * split; [|done]. intros out [= <-].
        destruct (IHok out' eq_refl) as (H1 & H2 & H3 & H4).
        split; [simpl; by rewrite H1|].
        split; [by rewrite fmap_cons, H2|].
        split; [by rewrite fmap_cons, H3|by rewrite fmap_cons, H4].
Qed.

(** X14: [deserializeNode] fails with "unkown data field encoding" for
    every encoding but "text" and "base64", whatever the node holds.
    For "text" the data are the bytes of the string, for "base64" what
    [DecodeString] gives, and a failure of [DecodeString] is returned
    before any link is looked at.  When it succeeds the new node has one
    link for each link of the input, in the same order, with the same
    name and size and the Cid that [cid.Decode] gives for the hash; when
    a hash does not decode, the error is that of the first such link.
    [nodeEmpty] holds exactly for the node with no data and no links. *)
Theorem deserializeNode_spec (nd : Node) (dataFieldEncoding : string) :
  (dataFieldEncoding ≠ "text" → dataFieldEncoding ≠ "base64" →
   deserializeNode DecodeString Decode nd dataFieldEncoding
   = inl UnknownEncoding) ∧
  (∀ err, dataFieldEncoding = "base64" →
     DecodeString (Data nd) = inl err →
     deserializeNode DecodeString Decode nd dataFieldEncoding
     = inl (DecodeStringFailed err)) ∧
  (∀ out, deserializeNode DecodeString Decode nd dataFieldEncoding = inr out →
     (dataFieldEncoding = "text" ∧
      data out = String.list_byte_of_string (Data nd) ∨
      dataFieldEncoding = "base64" ∧
      DecodeString (Data nd) = inr (data out)) ∧
     length (links out) = length (Links nd) ∧
     lName <$> links out = Name <$> Links nd ∧
     lSize <$> links out = Size <$> Links nd ∧
     (inr ∘ lCid) <$> links out = (Decode ∘ Hash) <$> Links nd) ∧
  (∀ err, deserializeNode DecodeString Decode nd dataFieldEncoding
          = inl (CidDecodeFailed err) →
     ∃ before link after,
       Links nd = before ++ link :: after ∧
       Forall (λ l, ∃ c, Decode (Hash l) = inr c) before ∧
       Decode (Hash link) = inl err) ∧
  (nodeEmpty nd = true ↔ nd = mkNode [] "").
Proof.
  destruct (decode_links_spec (Links nd)) as [Hok Herr].
  unfold deserializeNode, decode_data.
  split; [|split; [|split; [|split]]].
  - intros H1 H2. by rewrite !decide_False.
  - intros err -> Hd. rewrite decide_False by done.
    rewrite decide_True by done. by rewrite Hd.
  - intros out Hout.
    destruct (decide (dataFieldEncoding = "text")) as [->|Hnt].
    + destruct (decode_links Decode (Links nd)) as [f|ls]; [done|].
      injection Hout as <-. simpl. split; [by left|]. by apply Hok.
    + destruct (decide (dataFieldEncoding = "base64")) as [->|Hnb]; [|done].
      destruct (DecodeString (Data nd)) as [e|bytes]; [done|].
      destruct (decode_links Decode (Links nd)) as [f|ls]; [done|].
      injection Hout as <-. simpl. split; [by right|]. by apply Hok.
  - intros err Hres.
    assert (decode_links Decode (Links nd) = inl (CidDecodeFailed err)) as Hl.
    { repeat case_decide; try done;
        repeat (destruct (DecodeString _); try done);
        destruct (decode_links Decode (Links nd)); by simplify_eq. }
    destruct (Herr _ Hl) as (before & link & after & err' & ? & ? & ? & [= ->]).
    by exists before, link, after.
  - unfold nodeEmpty. destruct nd as [ls d]. simpl.
    rewrite andb_true_iff, !bool_decide_eq_true. split.
    + intros [-> Hlen]. by apply nil_length_inv in Hlen as ->.
    + by intros [= -> ->].
Qed.

End Decoders.

End ObjectNodeSpec.
